(** * pipeline/rpc: the resilient rpc client

    A shallow embedding of [pipeline/rpc/client.go] and of the [Peer]
    interface and data types of the same package.

    The client talks to three things it does not own: the websocket dialer,
    the [jsonrpc2.Conn] it gets from a successful dial, and the clock.  They
    are collected in the [Transport] class below; every function of the client
    is written once, over an arbitrary transport.  A session carries the state
    of the outside world, the fields of the [Client] struct and a log of the
    transport operations performed so far, in the order they happened. *)

From Stdlib Require Import ZArith List String Bool Lia.
Import ListNotations.
Open Scope string_scope.
Open Scope list_scope.
Open Scope Z_scope.

(** ** Errors

    The three sentinel values the client compares against, and everything
    else. *)
Inductive error : Type :=
| ErrClosed                 (* jsonrpc2.ErrClosed *)
| ErrUnexpectedEOF          (* io.ErrUnexpectedEOF *)
| EOF                       (* io.EOF *)
| ErrOther (msg : string).  (* any other error value *)

Definition is_ErrClosed (e : error) : bool :=
  match e with ErrClosed => true | _ => false end.

Definition is_ErrUnexpectedEOF (e : error) : bool :=
  match e with ErrUnexpectedEOF => true | _ => false end.

Definition is_EOF (e : error) : bool :=
  match e with EOF => true | _ => false end.

(** The class of errors after which [call] reconnects:
    [err == jsonrpc2.ErrClosed || err == io.ErrUnexpectedEOF]. *)
Definition connectivity (e : error) : bool :=
  is_ErrClosed e || is_ErrUnexpectedEOF e.

(** ** Data types of the package (peer.go) *)

Record Filter : Type := { Platform : string }.

Record State : Type := {
  Exited   : bool;
  ExitCode : Z;
  Started  : Z;
  Finished : Z;
  Error    : string
}.

(** A [jsonrpc2.Conn] pointer that is not nil: connections are told apart by a
    handle. *)
Definition Conn : Type := nat.

(** ** Method names and defaults *)

Definition methodNext   : string := "next".
Definition methodNotify : string := "notify".
Definition methodUpdate : string := "update".
Definition methodLog    : string := "log".
Definition methodSave   : string := "save".

(** [math.MaxInt32] *)
Definition MaxInt32 : Z := 2147483647.
(** [time.Second], a [time.Duration] counts nanoseconds. *)
Definition Second : Z := 1000000000.

Definition defaultRetryClount : Z := MaxInt32.
Definition defaultBackoff     : Z := 10 * Second.

(** ** The Client struct

    [sync.Mutex] has no field of its own here: every critical section of the
    source is one atomic step of the model (see [thread_step] for the steps
    of concurrent calls). *)
Record Client : Type := {
  conn     : option Conn;   (* nil until the first successful open *)
  done     : bool;
  retry    : Z;
  backoff  : Z;
  endpoint : string
}.

Definition set_conn (c : Conn) (t : Client) : Client :=
  {| conn := Some c; done := done t; retry := retry t;
     backoff := backoff t; endpoint := endpoint t |}.

Definition set_done (t : Client) : Client :=
  {| conn := conn t; done := true; retry := retry t;
     backoff := backoff t; endpoint := endpoint t |}.

(** [type Option], a function that updates the client it is given. *)
Definition Option : Type := Client -> Client.

(** ** io.Reader and ioutil.ReadAll

    A reader hands out chunks of bytes until it reports an error; the end of
    the stream is the error [io.EOF]. *)
Inductive Reader : Type :=
| RdErr  (e : error)
| RdData (chunk : list Byte.byte) (rest : Reader).

(** [ioutil.ReadAll]: append every chunk to the buffer; [io.EOF] is not
    reported as an error. *)
Fixpoint ReadAll_from (buf : list Byte.byte) (r : Reader)
  : list Byte.byte * option error :=
  match r with
  | RdErr e => if is_EOF e then (buf, None) else (buf, Some e)
  | RdData chunk rest => ReadAll_from (buf ++ chunk) rest
  end.

Definition ReadAll (r : Reader) : list Byte.byte * option error :=
  ReadAll_from [] r.

(** What a reader holds, told without running it. *)
Fixpoint reader_bytes (r : Reader) : list Byte.byte :=
  match r with
  | RdErr _ => []
  | RdData chunk rest => chunk ++ reader_bytes rest
  end.

Fixpoint reader_error (r : Reader) : option error :=
  match r with
  | RdErr e => if is_EOF e then None else Some e
  | RdData _ rest => reader_error rest
  end.

Section Rpc.

(** [Line] (a log entry) and [backend.Config] are declared elsewhere; the
    client only passes them through. *)
Context {Line Config : Type}.

Record Pipeline : Type := {
  ID      : string;
  Pstate  : State;
  Pconfig : option Config;   (* pointer to backend.Config *)
  Timeout : Z
}.

(** [new(Pipeline)] *)
Definition zeroPipeline : Pipeline :=
  {| ID := ""; Pstate := {| Exited := false; ExitCode := 0; Started := 0;
                             Finished := 0; Error := "" |};
     Pconfig := None; Timeout := 0 |}.

Record saveReq : Type := {
  save_ID   : string;
  save_Mime : string;
  save_Data : list Byte.byte
}.

Record updateReq : Type := {
  update_ID    : string;
  update_State : State
}.

Record logReq : Type := {
  log_ID   : string;
  log_Line : option Line    (* pointer to Line *)
}.

(** The [req interface{}] argument of [call], as the five methods build
    it. *)
Inductive request : Type :=
| ReqNil
| ReqString (id : string)
| ReqUpdate (r : updateReq)
| ReqLog    (r : logReq)
| ReqSave   (r : saveReq).

(** The [res interface{}] argument of [call]: nil, or the cell a pointer
    leads to, which the connection fills in. *)
Inductive result : Type :=
| ResNil
| ResPipeline (p : Pipeline)
| ResBool     (b : bool).

(** ** The outside world *)

Class Transport (World : Type) : Type := {
  (** [websocket.DefaultDialer.Dial(endpoint, nil)], wrapped in a
      [jsonrpc2.Conn] when it succeeds. *)
  dial : string -> World -> (error + Conn) * World;
  (** [Call(ctx, name, req, res)] of a jsonrpc2 connection: the error (nil is
      [None]) and the contents of [res] afterwards. *)
  conn_Call : Conn -> string -> request -> result -> World ->
              (option error * result) * World;
  (** [Close()] of a jsonrpc2 connection. *)
  conn_Close : Conn -> World -> option error * World;
  (** The world after a duration has passed, [<-time.After(d)]. *)
  after : Z -> World -> World
}.

Context {World : Type} {T : Transport World}.

(** What the client did to the transport; for a dial, also the connection
    it got, if any. *)
Inductive event : Type :=
| EvDial  (endpoint : string) (got : option Conn)
| EvSleep (d : Z)
| EvCall  (c : Conn) (name : string) (req : request)
| EvClose (c : Conn).

Record Session : Type := {
  world  : World;
  cli    : Client;
  events : list event
}.

Definition with_world (w : World) (s : Session) : Session :=
  {| world := w; cli := cli s; events := events s |}.

Definition with_cli (t : Client) (s : Session) : Session :=
  {| world := world s; cli := t; events := events s |}.

Definition record (e : event) (s : Session) : Session :=
  {| world := world s; cli := cli s; events := events s ++ [e] |}.

(** A computation either returns, or panics on a nil pointer; both leave a
    session behind. *)
Inductive outcome (A : Type) : Type :=
| Returns (a : A) (s : Session)
| Panics  (s : Session).
Arguments Returns {A} a s.
Arguments Panics {A} s.

Definition M (A : Type) : Type := Session -> outcome A.

Definition ret {A} (a : A) : M A := fun s => Returns a s.

Definition bind {A B} (m : M A) (k : A -> M B) : M B :=
  fun s => match m s with
           | Returns a s' => k a s'
           | Panics s' => Panics s'
           end.

Notation "x <- m ;; k" := (bind m (fun x => k))
  (at level 61, m at next level, right associativity).
Notation "' p <- m ;; k" := (bind m (fun x => match x with p => k end))
  (at level 61, p pattern, m at next level, right associativity).

(** ** open (client.go 149-162) *)
Definition open : M (option error) := fun s =>
  (* t.Lock(); defer t.Unlock() *)
  if done (cli s) then Returns (Some EOF) s
  else
    let ep := endpoint (cli s) in
    match dial ep (world s) with
    | (inl err, w) => Returns (Some err) (record (EvDial ep None) (with_world w s))
    | (inr c, w) =>
        Returns None
          (with_cli (set_conn c (cli s)) (record (EvDial ep (Some c)) (with_world w s)))
    end.

(** [<-time.After(t.backoff)] *)
Definition sleep : M unit := fun s =>
  let d := backoff (cli s) in
  Returns tt (record (EvSleep d) (with_world (after d (world s)) s)).

(** ** openRetry (client.go 133-145)

    [for i := 0; i < t.retry; i++]: the argument is the number of rounds
    still to run, [t.retry - i]. *)
Fixpoint openRetry_rounds (n : nat) : M (option error) :=
  match n with
  | O => ret None
  | S n' =>
      err <- open ;;
      match err with
      | None => ret None                      (* break; return nil *)
      | Some e =>
          if is_EOF e then ret (Some e)
          else (_ <- sleep ;; openRetry_rounds n')
      end
  end.

Definition openRetry : M (option error) := fun s =>
  openRetry_rounds (Z.to_nat (retry (cli s))) s.

(** [t.conn.Call(context.Background(), name, req, res)] *)
Definition conn_call (name : string) (req : request) (res : result)
  : M (option error * result) := fun s =>
  match conn (cli s) with
  | None => Panics s
  | Some c =>
      let '(r, w) := conn_Call c name req res (world s) in
      Returns r (record (EvCall c name req) (with_world w s))
  end.

(** ** call (client.go 118-128) *)
Definition call (name : string) (req : request) (res : result)
  : M (option error * result) :=
  ' (err, res1) <- conn_call name req res ;;
  match err with
  | None => ret (None, res1)
  | Some e =>
      if negb (is_ErrClosed e) && negb (is_ErrUnexpectedEOF e)
      then ret (Some e, res1)
      else
        err2 <- openRetry ;;
        match err2 with
        | Some e2 => ret (Some e2, res1)
        | None => conn_call name req res1
        end
  end.

(** ** Close (client.go 109-114) *)
Definition Close : M (option error) := fun s =>
  let s1 := with_cli (set_done (cli s)) s in
  match conn (cli s1) with
  | None => Panics s1
  | Some c =>
      let '(err, w) := conn_Close c (world s1) in
      Returns err (record (EvClose c) (with_world w s1))
  end.

(** ** NewClient (client.go 59-70) *)
Definition newClient (ep : string) : Client :=
  {| conn := None; done := false; retry := defaultRetryClount;
     backoff := defaultBackoff; endpoint := ep |}.

Definition apply_opts (opts : list Option) (t : Client) : Client :=
  fold_left (fun t opt => opt t) opts t.

Definition NewClient (ep : string) (opts : list Option) (w : World)
  : outcome (option error) :=
  openRetry {| world := w; cli := apply_opts opts (newClient ep);
               events := [] |}.

(** ** The methods of the client (client.go 72-106) *)

Definition as_pipeline (r : result) : Pipeline :=
  match r with ResPipeline p => p | _ => zeroPipeline end.

Definition as_bool (r : result) : bool :=
  match r with ResBool b => b | _ => false end.

Definition Next : M (Pipeline * option error) :=
  ' (err, res) <- call methodNext ReqNil (ResPipeline zeroPipeline) ;;
  ret (as_pipeline res, err).

Definition Notify (id : string) : M (bool * option error) :=
  ' (err, out) <- call methodNotify (ReqString id) (ResBool false) ;;
  ret (as_bool out, err).

(** [return t.call(...)]: of the pair the model of [call] yields, the error. *)
Definition returning_error (m : M (option error * result)) : M (option error) :=
  ' (err, _) <- m ;; ret err.

Definition Update (id : string) (state : State) : M (option error) :=
  returning_error
    (call methodUpdate (ReqUpdate {| update_ID := id; update_State := state |})
       ResNil).

Definition Log (id : string) (line : option Line) : M (option error) :=
  returning_error
    (call methodLog (ReqLog {| log_ID := id; log_Line := line |}) ResNil).

Definition Save (id mime : string) (file : Reader) : M (option error) :=
  let '(data, err) := ReadAll file in
  match err with
  | Some e => ret (Some e)
  | None =>
      returning_error
        (call methodSave
           (ReqSave {| save_ID := id; save_Mime := mime; save_Data := data |})
           ResNil)
  end.

(** ** The Peer interface (peer.go 35-55)

    One constructor per method of the interface, with the arguments a caller
    passes (the context is not used by the client). *)
Inductive PeerCall : Type :=
| PeerNext
| PeerNotify (id : string)
| PeerExtend (id : string)
| PeerUpdate (id : string) (state : State)
| PeerSave   (id mime : string) (file : Reader)
| PeerLog    (id : string) (line : option Line).

Definition error_of {A} (m : M (A * option error)) : M (option error) :=
  ' (_, err) <- m ;; ret err.

(** The method of [*Client] that answers a method of [Peer], reduced to the
    error it returns; [None] where client.go declares no such method. *)
Definition Client_method (c : PeerCall) : option (M (option error)) :=
  match c with
  | PeerNext => Some (error_of Next)
  | PeerNotify id => Some (error_of (Notify id))
  | PeerExtend _ => None
  | PeerUpdate id state => Some (Update id state)
  | PeerSave id mime file => Some (Save id mime file)
  | PeerLog id line => Some (Log id line)
  end.

(** The remote method name behind each method of [Peer], where client.go
    has a constant for it. *)
Definition method_name (c : PeerCall) : option string :=
  match c with
  | PeerNext => Some methodNext
  | PeerNotify _ => Some methodNotify
  | PeerExtend _ => None
  | PeerUpdate _ _ => Some methodUpdate
  | PeerSave _ _ _ => Some methodSave
  | PeerLog _ _ => Some methodLog
  end.

(** ** Counting what happened *)

Definition is_dial (e : event) : bool :=
  match e with EvDial _ _ => true | _ => false end.

Definition is_call (e : event) : bool :=
  match e with EvCall _ _ _ => true | _ => false end.

(** Every call in [l] is a call of [name] with [req]. *)
Definition calls_of (name : string) (req : request) (l : list event) : Prop :=
  forall e, In e l -> is_call e = true -> exists c, e = EvCall c name req.

Definition n_dials (l : list event) : nat := List.length (filter is_dial l).
Definition n_calls (l : list event) : nat := List.length (filter is_call l).

(** The events of [n] rounds of [openRetry] that all fail to dial, and the
    world they leave. *)
Fixpoint failed_rounds (n : nat) (ep : string) (d : Z) : list event :=
  match n with
  | O => []
  | S n' => EvDial ep None :: EvSleep d :: failed_rounds n' ep d
  end.

Fixpoint world_after_failures (n : nat) (ep : string) (d : Z) (w : World) : World :=
  match n with
  | O => w
  | S n' => world_after_failures n' ep d (after d (snd (dial ep w)))
  end.

(** The next [n] dials, a backoff apart, all fail, and none with [io.EOF]. *)
Fixpoint dials_fail (n : nat) (ep : string) (d : Z) (w : World) : Prop :=
  match n with
  | O => True
  | S n' =>
      match dial ep w with
      | (inl e, w') => is_EOF e = false /\ dials_fail n' ep d (after d w')
      | (inr _, _) => False
      end
  end.

(** Events of a reconnect: dials and backoff waits only. *)
Definition is_reopen (e : event) : bool :=
  match e with EvDial _ _ | EvSleep _ => true | _ => false end.

(** [s'] is [s] after some rounds of (re)opening: the log grew by dials and
    waits, the settings are the same, the closed flag is as it was, and a
    connection, once there, is still there. *)
Definition reopened (s s' : Session) : Prop :=
  exists mid,
    events s' = events s ++ mid /\ forallb is_reopen mid = true /\
    done (cli s') = done (cli s) /\ retry (cli s') = retry (cli s) /\
    backoff (cli s') = backoff (cli s) /\ endpoint (cli s') = endpoint (cli s) /\
    (conn (cli s) <> None -> conn (cli s') <> None).

(** The session a computation leaves, however it ends. *)
Definition session_of {A} (o : outcome A) : Session :=
  match o with Returns _ s => s | Panics s => s end.

(** What a program can do with the client once it has one. *)
Inductive op : Type :=
| OpOpen
| OpOpenRetry
| OpCall (name : string) (req : request) (res : result)
| OpClose.

Definition do_op (s : Session) (o : op) : Session :=
  match o with
  | OpOpen => session_of (open s)
  | OpOpenRetry => session_of (openRetry s)
  | OpCall name req res => session_of (call name req res s)
  | OpClose => session_of (Close s)
  end.

(** ** Concurrent calls

    Goroutines inside [call] share the client.  Each of them is at one of the
    places below; a step runs it up to the next place, and steps of different
    goroutines interleave.  The critical section of [open] is one step.

    An attempt is one step as well: the read of [t.conn] and the [Call] on
    what was read.  The source reads [t.conn] without the lock and then
    blocks in [Call], so a run of the program can also install a new
    connection between that read and the send.  The schedules here are
    those in which it does not; what is proved over all of them is about
    dials, the closed flag and the number of attempts and steps, never about
    which connection an attempt of a concurrent call goes to. *)
Inductive pc : Type :=
| AtCall   (name : string) (req : request) (res : result)           (* line 119 *)
| AtLoop   (i : Z) (name : string) (req : request) (res : result)   (* line 134 *)
| AtSleep  (i : Z) (name : string) (req : request) (res : result)   (* line 142 *)
| AtReplay (name : string) (req : request) (res : result)           (* line 127 *)
| Returned (r : option error * result)
| Panicked.

Definition thread_step (p : pc) (s : Session) : pc * Session :=
  match p with
  | AtCall name req res =>
      match conn_call name req res s with
      | Panics s' => (Panicked, s')
      | Returns (None, res1) s' => (Returned (None, res1), s')
      | Returns (Some e, res1) s' =>
          if negb (is_ErrClosed e) && negb (is_ErrUnexpectedEOF e)
          then (Returned (Some e, res1), s')
          else (AtLoop 0 name req res1, s')
      end
  | AtLoop i name req res =>
      if i <? retry (cli s) then
        match open s with
        | Panics s' => (Panicked, s')
        | Returns None s' => (AtReplay name req res, s')
        | Returns (Some e) s' =>
            if is_EOF e then (Returned (Some e, res), s')
            else (AtSleep i name req res, s')
        end
      else (AtReplay name req res, s)
  | AtSleep i name req res =>
      match sleep s with
      | Panics s' => (Panicked, s')
      | Returns _ s' => (AtLoop (i + 1) name req res, s')
      end
  | AtReplay name req res =>
      match conn_call name req res s with
      | Panics s' => (Panicked, s')
      | Returns r s' => (Returned r, s')
      end
  | Returned r => (Returned r, s)
  | Panicked => (Panicked, s)
  end.

(** One goroutine on its own, for [k] steps. *)
Fixpoint run_thread (k : nat) (p : pc) (s : Session) : pc * Session :=
  match k with
  | O => (p, s)
  | S k' => let '(p', s') := thread_step p s in run_thread k' p' s'
  end.

Definition pc_of (o : outcome (option error * result)) : pc * Session :=
  match o with
  | Returns r s => (Returned r, s)
  | Panics s => (Panicked, s)
  end.

(** Two goroutines and the schedule that picks which one moves. *)
Inductive tid : Type := ThreadA | ThreadB.

Record Conf : Type := {
  shared : Session;
  pcA : pc;
  pcB : pc
}.

Definition is_Panicked (p : pc) : bool :=
  match p with Panicked => true | _ => false end.

Definition is_Returned (p : pc) : bool :=
  match p with Returned _ => true | _ => false end.

(** A panic ends the program: nothing moves after it. *)
Definition sched_step (c : Conf) (t : tid) : Conf :=
  if is_Panicked (pcA c) || is_Panicked (pcB c) then c
  else
    match t with
    | ThreadA =>
        let '(p, s) := thread_step (pcA c) (shared c) in
        {| shared := s; pcA := p; pcB := pcB c |}
    | ThreadB =>
        let '(p, s) := thread_step (pcB c) (shared c) in
        {| shared := s; pcA := pcA c; pcB := p |}
    end.

Definition run (sched : list tid) (c : Conf) : Conf :=
  fold_left sched_step sched c.

(** Whether a goroutine has been through [open] since its first attempt
    failed: it has not at the head of the first round, it has anywhere
    later. *)
Definition dialled (p : pc) : nat :=
  match p with
  | AtCall _ _ _ => 0
  | AtLoop i _ _ _ => if i <=? 0 then 0 else 1
  | _ => 1
  end.

(** The places a goroutine can be at once its first attempt has failed with
    a connectivity error. *)
Definition past_first_attempt (p : pc) : bool :=
  match p with
  | AtCall _ _ _ => false
  | AtLoop i _ _ _ | AtSleep i _ _ _ => 0 <=? i
  | _ => true
  end.

(** The connection the client holds after the events [l], when it held
    [cur] before them: the one the last successful dial got. *)
Fixpoint installed (cur : option Conn) (l : list event) : option Conn :=
  match l with
  | [] => cur
  | EvDial _ (Some c) :: l' => installed (Some c) l'
  | _ :: l' => installed cur l'
  end.

(** The connections the calls went to, in order. *)
Definition call_conns (l : list event) : list Conn :=
  flat_map (fun e => match e with EvCall c _ _ => [c] | _ => [] end) l.

(** ** Waits, closes and the connection in use *)

Definition is_sleep (e : event) : bool :=
  match e with EvSleep _ => true | _ => false end.

Definition is_close (e : event) : bool :=
  match e with EvClose _ => true | _ => false end.

Definition n_sleeps (l : list event) : nat := List.length (filter is_sleep l).
Definition n_closes (l : list event) : nat := List.length (filter is_close l).

(** Every call and every close in [l] went to the connection the client
    held at that moment. *)
Fixpoint uses_current (cur : option Conn) (l : list event) : Prop :=
  match l with
  | [] => True
  | EvDial _ (Some c) :: l' => uses_current (Some c) l'
  | EvCall c _ _ :: l' => cur = Some c /\ uses_current cur l'
  | EvClose c :: l' => cur = Some c /\ uses_current cur l'
  | _ :: l' => uses_current cur l'
  end.

(** [l] is what was logged between [s] and [s'], and the connection held in
    [s'] is the one [l] accounts for. *)
Definition tracked (s s' : Session) (l : list event) : Prop :=
  events s' = events s ++ l /\
  conn (cli s') = installed (conn (cli s)) l /\
  uses_current (conn (cli s)) l.

Definition n_close_ops (ops : list op) : nat :=
  List.length (filter (fun o => match o with OpClose => true | _ => false end) ops).

(** The session after [k] rounds of [openRetry] that failed to dial. *)
Definition session_after_failures (k : nat) (s : Session) : Session :=
  {| world := world_after_failures k (endpoint (cli s)) (backoff (cli s)) (world s);
     cli := cli s;
     events := events s ++ failed_rounds k (endpoint (cli s)) (backoff (cli s)) |}.

(** The attempts a goroutine may still make. *)
Definition calls_left (p : pc) : nat :=
  match p with
  | AtCall _ _ _ => 2
  | AtLoop _ _ _ _ | AtSleep _ _ _ _ | AtReplay _ _ _ => 1
  | Returned _ | Panicked => 0
  end.

(** The steps a goroutine may still take, with [b] rounds of budget. *)
Definition steps_left (b : Z) (p : pc) : nat :=
  match p with
  | AtCall _ _ _ => 2 * Z.to_nat b + 3
  | AtLoop i _ _ _ => 2 * Z.to_nat (b - i) + 2
  | AtSleep i _ _ _ => 2 * Z.to_nat (b - i - 1) + 3
  | AtReplay _ _ _ => 1
  | Returned _ | Panicked => 0
  end.

(** What no operation changes: the settings stay, the closed flag is never
    cleared, a connection is never forgotten. *)
Definition settled (t t' : Client) : Prop :=
  retry t' = retry t /\ backoff t' = backoff t /\ endpoint t' = endpoint t /\
  (done t = true -> done t' = true) /\
  (conn t <> None -> conn t' <> None).

Definition is_final (p : pc) : bool := is_Returned p || is_Panicked p.

End Rpc.

Arguments Returns {Line World A} a s.
Arguments Panics {Line World A} s.

(** ** A scripted transport

    A world to run the client in.  Dials and calls follow scripts: each dial
    takes the next entry of [dial_script] ([None]: the dial succeeds and
    yields the connection [fresh]), each call on a live connection takes the
    next entry of [call_script]; when a script has run out, everything
    succeeds.  A connection listed in [down] is closed: as with jsonrpc2,
    [Call] and [Close] on it answer [ErrClosed]. *)
Module Sim.

Record World : Type := {
  now         : Z;
  dial_script : list (option error);
  fresh       : Conn;
  down        : list Conn;
  call_script : list (option error)
}.

Definition Line : Type := string.
Definition Config : Type := unit.

Definition is_down (c : Conn) (w : World) : bool :=
  existsb (Nat.eqb c) (down w).

Definition sim_dial (ep : string) (w : World) : (error + Conn) * World :=
  match dial_script w with
  | Some e :: rest =>
      (inl e, {| now := now w; dial_script := rest; fresh := fresh w;
                 down := down w; call_script := call_script w |})
  | rest =>
      (inr (fresh w),
       {| now := now w; dial_script := tl rest; fresh := S (fresh w);
          down := down w; call_script := call_script w |})
  end.

(** What the server answers when a call goes through. *)
Definition reply (res : result (Config := Config)) : result (Config := Config) :=
  match res with
  | ResNil => ResNil
  | ResPipeline p =>
      ResPipeline {| ID := "42"; Pstate := Pstate p; Pconfig := Pconfig p;
                     Timeout := 3600 |}
  | ResBool _ => ResBool true
  end.

Definition sim_Call (c : Conn) (name : string) (req : request (Line := Line))
    (res : result (Config := Config)) (w : World)
  : (option error * result (Config := Config)) * World :=
  if is_down c w then ((Some ErrClosed, res), w)
  else
    match call_script w with
    | Some e :: rest =>
        ((Some e, res),
         {| now := now w; dial_script := dial_script w; fresh := fresh w;
            down := down w; call_script := rest |})
    | rest =>
        ((None, reply res),
         {| now := now w; dial_script := dial_script w; fresh := fresh w;
            down := down w; call_script := tl rest |})
    end.

Definition sim_Close (c : Conn) (w : World) : option error * World :=
  if is_down c w then (Some ErrClosed, w)
  else (None, {| now := now w; dial_script := dial_script w; fresh := fresh w;
                 down := c :: down w; call_script := call_script w |}).

Definition sim_after (d : Z) (w : World) : World :=
  {| now := now w + d; dial_script := dial_script w; fresh := fresh w;
     down := down w; call_script := call_script w |}.

#[global] Instance transport : Transport (Line := Line) (Config := Config) World := {
  dial := sim_dial;
  conn_Call := sim_Call;
  conn_Close := sim_Close;
  after := sim_after
}.

(** A world in which connection 0 has dropped. *)
Definition world0 (dials calls : list (option error)) : World :=
  {| now := 0; dial_script := dials; fresh := 1%nat; down := [0%nat];
     call_script := calls |}.

(** A fresh world: nothing dialled yet. *)
Definition world_new (dials calls : list (option error)) : World :=
  {| now := 0; dial_script := dials; fresh := 0%nat; down := [];
     call_script := calls |}.

(** A client of this package with a connection installed. *)
Definition client (c : option Conn) (closed : bool) (budget : Z) : Client :=
  {| conn := c; done := closed; retry := budget; backoff := 10 * Second;
     endpoint := "ws://queue" |}.

Definition session (w : World) (t : Client) : Session (Line := Line) :=
  {| world := w; cli := t; events := [] |}.

(** ** Sessions to run *)

Definition update_req : request (Line := Line) :=
  ReqUpdate {| update_ID := "42";
               update_State := {| Exited := true; ExitCode := 0; Started := 10;
                                  Finished := 20; Error := "" |} |}.

(** The connection dropped; the replay on the new connection breaks too. *)
Definition s_dropped : Session (Line := Line) :=
  session (world0 [] [Some ErrUnexpectedEOF]) (client (Some 0%nat) false 3).

(** The server turns a save down. *)
Definition s_rejecting : Session (Line := Line) :=
  session {| now := 0; dial_script := []; fresh := 1%nat; down := [];
             call_script := [Some (ErrOther "invalid mime")] |}
    (client (Some 0%nat) false 3).

Definition save_req : request (Line := Line) :=
  ReqSave {| save_ID := "42"; save_Mime := ""; save_Data := [] |}.

(** A live session, closed, then used again. *)
Definition s_live : Session (Line := Line) :=
  session {| now := 0; dial_script := []; fresh := 1%nat; down := [];
             call_script := [] |}
    (client (Some 0%nat) false 3).

(** Two rounds of budget, the endpoint refuses both dials. *)
Definition s_unreachable : Session (Line := Line) :=
  session (world_new [Some (ErrOther "refused"); Some (ErrOther "refused")] [])
    (client None false 2).

(** Two calls at once on the dropped connection. *)
Definition two_calls : Conf (Line := Line) (Config := Config) (World := World) :=
  {| shared := session (world0 [] []) (client (Some 0%nat) false 3);
     pcA := AtCall methodLog (ReqLog {| log_ID := "42"; log_Line := Some "hello" |}) ResNil;
     pcB := AtCall methodUpdate update_req ResNil |}.

(** A client built with no budget. *)
Definition no_budget : Option :=
  fun t => {| conn := conn t; done := done t; retry := 0;
              backoff := backoff t; endpoint := endpoint t |}.

End Sim.


(** * Properties *)

Section RpcFacts.

Context {Line Config World : Type}.
Context {T : Transport (Line := Line) (Config := Config) World}.

Implicit Types (s : Session (Line := Line) (World := World)).

(** ** Counting *)

Lemma n_calls_app (l1 l2 : list (event (Line := Line))) :
  n_calls (l1 ++ l2) = (n_calls l1 + n_calls l2)%nat.
Proof. unfold n_calls. now rewrite filter_app, length_app. Qed.

Lemma n_dials_app (l1 l2 : list (event (Line := Line))) :
  n_dials (l1 ++ l2) = (n_dials l1 + n_dials l2)%nat.
Proof. unfold n_dials. now rewrite filter_app, length_app. Qed.

Lemma reopen_no_calls (mid : list (event (Line := Line))) :
  forallb is_reopen mid = true -> n_calls mid = 0%nat.
Proof.
  induction mid as [|e mid IH]; simpl; [reflexivity|].
  intros H. apply andb_true_iff in H as [He Hm].
  destruct e; simpl in *; try discriminate; now apply IH.
Qed.

(** ** open *)

Lemma open_closed s :
  done (cli s) = true -> open s = Returns (Some EOF) s.
Proof. intros H. unfold open. now rewrite H. Qed.

Lemma open_dial_fails s e w :
  done (cli s) = false ->
  dial (endpoint (cli s)) (world s) = (inl e, w) ->
  open s = Returns (Some e) (record (EvDial (endpoint (cli s)) None) (with_world w s)).
Proof. intros Hd Hdial. unfold open. now rewrite Hd, Hdial. Qed.

Lemma open_dial_succeeds s c w :
  done (cli s) = false ->
  dial (endpoint (cli s)) (world s) = (inr c, w) ->
  open s = Returns None
             (with_cli (set_conn c (cli s))
                (record (EvDial (endpoint (cli s)) (Some c)) (with_world w s))).
Proof. intros Hd Hdial. unfold open. now rewrite Hd, Hdial. Qed.

Lemma reopened_refl s : reopened s s.
Proof.
  exists []. rewrite app_nil_r. repeat split; auto.
Qed.

Lemma reopened_trans s1 s2 s3 :
  reopened s1 s2 -> reopened s2 s3 -> reopened s1 s3.
Proof.
  intros (m1 & E1 & Q1 & D1 & R1 & B1 & P1 & C1)
         (m2 & E2 & Q2 & D2 & R2 & B2 & P2 & C2).
  exists (m1 ++ m2). rewrite E2, E1, app_assoc, forallb_app, Q1, Q2.
  repeat split; try congruence. auto.
Qed.

(** [open] always returns, and only reopens. *)
Lemma open_returns s :
  exists r s', open s = Returns r s' /\ reopened s s'.
Proof.
  unfold open. destruct (done (cli s)) eqn:Hd.
  - exists (Some EOF), s. split; [reflexivity | apply reopened_refl].
  - destruct (dial (endpoint (cli s)) (world s)) as [[e|c] w].
    + eexists _, _. split; [reflexivity|].
      exists [EvDial (endpoint (cli s)) None]. simpl. repeat split; auto.
    + eexists _, _. split; [reflexivity|].
      exists [EvDial (endpoint (cli s)) (Some c)]. simpl. repeat split; auto.
      discriminate.
Qed.

Lemma sleep_reopened s :
  exists s', sleep s = Returns tt s' /\ reopened s s'.
Proof.
  eexists. split; [reflexivity|].
  exists [EvSleep (backoff (cli s))]. simpl. repeat split; auto.
Qed.

(** ** openRetry *)

Lemma openRetry_rounds_returns n s :
  exists r s', openRetry_rounds n s = Returns r s' /\ reopened s s'.
Proof.
  revert s. induction n as [|n IH]; intros s.
  - exists None, s. split; [reflexivity | apply reopened_refl].
  - simpl. unfold bind.
    destruct (open_returns s) as (r & s1 & Ho & R1). rewrite Ho.
    destruct r as [e|].
    + destruct (is_EOF e).
      * exists (Some e), s1. split; [reflexivity | exact R1].
      * destruct (sleep_reopened s1) as (s2 & Hs & R2). rewrite Hs.
        destruct (IH s2) as (r & s3 & Hr & R3).
        exists r, s3. split; [exact Hr|].
        eapply reopened_trans; [exact R1|].
        eapply reopened_trans; [exact R2 | exact R3].
    + exists None, s1. split; [reflexivity | exact R1].
Qed.

Lemma openRetry_returns s :
  exists r s', openRetry s = Returns r s' /\ reopened s s'.
Proof. apply openRetry_rounds_returns. Qed.

(** ** call *)

Lemma conn_call_some s c name req res :
  conn (cli s) = Some c ->
  conn_call name req res s =
    Returns (fst (conn_Call c name req res (world s)))
      (record (EvCall c name req)
         (with_world (snd (conn_Call c name req res (world s))) s)).
Proof.
  intros Hc. unfold conn_call. rewrite Hc.
  now destruct (conn_Call c name req res (world s)).
Qed.

Lemma connectivity_false e :
  connectivity e = false ->
  negb (is_ErrClosed e) && negb (is_ErrUnexpectedEOF e) = true.
Proof. unfold connectivity. now destruct (is_ErrClosed e), (is_ErrUnexpectedEOF e). Qed.

Lemma connectivity_true e :
  connectivity e = true ->
  negb (is_ErrClosed e) && negb (is_ErrUnexpectedEOF e) = false.
Proof. unfold connectivity. now destruct (is_ErrClosed e), (is_ErrUnexpectedEOF e). Qed.

(** C2. A call whose attempt fails with an error that is neither
    [jsonrpc2.ErrClosed] nor [io.ErrUnexpectedEOF] returns that very error
    after this one attempt: the log grows by the one call and nothing else
    (no dial, no wait), and the client is as it was. *)
Theorem call_other_error_single_attempt s c name req res e res1 w1 :
  conn (cli s) = Some c ->
  conn_Call c name req res (world s) = ((Some e, res1), w1) ->
  connectivity e = false ->
  exists s',
    call name req res s = Returns (Some e, res1) s' /\
    events s' = events s ++ [EvCall c name req] /\
    n_calls (events s') = (n_calls (events s) + 1)%nat /\
    n_dials (events s') = n_dials (events s) /\
    cli s' = cli s /\ world s' = w1.
Proof.
  intros Hc Hcall He.
  exists (record (EvCall c name req) (with_world w1 s)).
  split; [|repeat split].
  - unfold call, bind. rewrite (conn_call_some _ _ _ _ _ Hc), Hcall. simpl.
    now rewrite (connectivity_false _ He).
  - simpl. now rewrite n_calls_app.
  - simpl. rewrite n_dials_app. unfold n_dials. simpl. lia.
Qed.

(** C1. A call whose first attempt fails with [jsonrpc2.ErrClosed] or
    [io.ErrUnexpectedEOF] runs [openRetry] once.  If that reports an error,
    the call returns it and the first attempt was the only one.  If it
    reports none, the call is issued once more, on the connection then
    current, and the call returns whatever this second attempt returns, be
    it an error of any kind.  Between the attempts only dials and waits
    happen, so there are never more than two attempts. *)
Theorem call_connectivity_error_single_replay s c name req res e res1 w1 :
  conn (cli s) = Some c ->
  conn_Call c name req res (world s) = ((Some e, res1), w1) ->
  connectivity e = true ->
  let s1 := record (EvCall c name req) (with_world w1 s) in
  exists err2 s2 out s',
    openRetry s1 = Returns err2 s2 /\ reopened s1 s2 /\
    call name req res s = Returns out s' /\
    (n_calls (events s') <= n_calls (events s) + 2)%nat /\
    match err2 with
    | Some e2 =>
        out = (Some e2, res1) /\ s' = s2 /\
        n_calls (events s') = (n_calls (events s) + 1)%nat
    | None =>
        exists c',
          conn (cli s2) = Some c' /\
          out = fst (conn_Call c' name req res1 (world s2)) /\
          s' = record (EvCall c' name req)
                 (with_world (snd (conn_Call c' name req res1 (world s2))) s2) /\
          n_calls (events s') = (n_calls (events s) + 2)%nat
    end.
Proof.
  intros Hc Hcall He s1.
  destruct (openRetry_returns s1) as (err2 & s2 & Hopen & Hre).
  assert (Hfirst :
    call name req res s =
      match err2 with
      | Some e2 => Returns (Some e2, res1) s2
      | None => conn_call name req res1 s2
      end).
  { unfold call, bind. rewrite (conn_call_some _ _ _ _ _ Hc), Hcall.
    simpl. rewrite (connectivity_true _ He). fold s1. rewrite Hopen.
    now destruct err2. }
  pose proof Hre as (mid & Hev & Hq & _ & _ & _ & _ & Hconn).
  assert (Hn2 : n_calls (events s2) = (n_calls (events s) + 1)%nat).
  { rewrite Hev, n_calls_app, (reopen_no_calls _ Hq). subst s1. simpl.
    rewrite n_calls_app. unfold n_calls. simpl. lia. }
  destruct err2 as [e2|].
  - exists (Some e2), s2, (Some e2, res1), s2.
    repeat split; auto. lia.
  - destruct (conn (cli s2)) as [c'|] eqn:Hc2.
    2:{ exfalso. apply Hconn; [|reflexivity]. subst s1. simpl. rewrite Hc. discriminate. }
    rewrite (conn_call_some _ _ _ _ _ Hc2) in Hfirst.
    eexists None, s2, _, _.
    split; [exact Hopen|]. split; [exact Hre|]. split; [exact Hfirst|].
    assert (Hn3 : n_calls (events (record (EvCall c' name req)
                (with_world (snd (conn_Call c' name req res1 (world s2))) s2)))
                  = (n_calls (events s) + 2)%nat).
    { simpl. rewrite n_calls_app, Hn2. unfold n_calls. simpl. lia. }
    split; [lia|]. exists c'. repeat split; auto.
Qed.

(** ** The closed flag *)

Lemma openRetry_closed s :
  done (cli s) = true ->
  openRetry s = Returns (if 0 <? retry (cli s) then Some EOF else None) s.
Proof.
  intros Hd. unfold openRetry.
  destruct (Z.ltb_spec 0 (retry (cli s))) as [Hpos|Hle].
  - destruct (Z.to_nat (retry (cli s))) as [|n] eqn:Hn; [lia|].
    simpl. unfold bind. now rewrite (open_closed _ Hd).
  - replace (Z.to_nat (retry (cli s))) with 0%nat by lia. reflexivity.
Qed.

Lemma conn_call_frame s name req res :
  cli (session_of (conn_call name req res s)) = cli s /\
  n_dials (events (session_of (conn_call name req res s))) = n_dials (events s).
Proof.
  unfold conn_call. destruct (conn (cli s)) as [c|]; [|now split].
  destruct (conn_Call c name req res (world s)) as [r w]. simpl.
  split; [reflexivity|]. rewrite n_dials_app. unfold n_dials. simpl. lia.
Qed.

Lemma call_closed_frame s name req res :
  done (cli s) = true ->
  cli (session_of (call name req res s)) = cli s /\
  n_dials (events (session_of (call name req res s))) = n_dials (events s).
Proof.
  intros Hd. unfold call, bind.
  pose proof (conn_call_frame s name req res) as [Hc Hn].
  destruct (conn_call name req res s) as [[err res1] s1|s1]; simpl in *;
    [|now split].
  destruct err as [e|]; [|now split].
  destruct (negb (is_ErrClosed e) && negb (is_ErrUnexpectedEOF e)); [now split|].
  assert (Hd1 : done (cli s1) = true) by now rewrite Hc.
  rewrite (openRetry_closed _ Hd1).
  destruct (0 <? retry (cli s1)); [now split|].
  pose proof (conn_call_frame s1 name req res1) as [Hc2 Hn2].
  split; congruence.
Qed.

Lemma Close_sets_done s :
  done (cli (session_of (Close s))) = true /\
  n_dials (events (session_of (Close s))) = n_dials (events s).
Proof.
  unfold Close. simpl. destruct (conn (cli s)) as [c|]; [|now split].
  destruct (conn_Close c (world s)) as [err w]. simpl.
  split; [reflexivity|]. rewrite n_dials_app. unfold n_dials. simpl. lia.
Qed.

Lemma do_op_closed s o :
  done (cli s) = true ->
  done (cli (do_op s o)) = true /\
  n_dials (events (do_op s o)) = n_dials (events s).
Proof.
  intros Hd. destruct o as [| |name req res|]; simpl.
  - rewrite (open_closed _ Hd). now split.
  - rewrite (openRetry_closed _ Hd). now split.
  - destruct (call_closed_frame s name req res Hd) as [Hc Hn].
    split; [now rewrite Hc | exact Hn].
  - apply Close_sets_done.
Qed.

Lemma ops_closed ops s :
  done (cli s) = true ->
  done (cli (fold_left do_op ops s)) = true /\
  n_dials (events (fold_left do_op ops s)) = n_dials (events s).
Proof.
  revert s. induction ops as [|o ops IH]; intros s Hd; simpl; [now split|].
  destruct (do_op_closed s o Hd) as [Hd1 Hn1].
  destruct (IH _ Hd1) as [Hd2 Hn2]. split; congruence.
Qed.

(** C3. Take any session, close it, and then let the program do whatever
    it likes with the client, in any order: open, openRetry, calls, further
    closes.  In the session [s] reached, the closed flag is set and no dial
    has been added to the log since before the close.  From there [open]
    returns [io.EOF] and leaves the session as it is; [openRetry], when its
    budget allows a round at all, returns [io.EOF] from the first round and
    leaves the session as it is (no dial, no wait); and a call whose attempt
    fails with a connectivity error returns [io.EOF] after that one
    attempt. *)
Theorem closed_session_never_dials (s0 : Session (Line := Line)) (ops : list op) :
  let s := fold_left do_op ops (session_of (Close s0)) in
  done (cli s) = true /\
  n_dials (events s) = n_dials (events s0) /\
  open s = Returns (Some EOF) s /\
  openRetry s = Returns (if 0 <? retry (cli s) then Some EOF else None) s /\
  (forall n, openRetry_rounds (S n) s = Returns (Some EOF) s) /\
  (forall c name req res e res1 w1,
      conn (cli s) = Some c ->
      conn_Call c name req res (world s) = ((Some e, res1), w1) ->
      connectivity e = true ->
      0 < retry (cli s) ->
      call name req res s =
        Returns (Some EOF, res1) (record (EvCall c name req) (with_world w1 s))).
Proof.
  intros s.
  destruct (Close_sets_done s0) as [Hd0 Hn0].
  destruct (ops_closed ops _ Hd0) as [Hd Hn]. fold s in Hd, Hn.
  split; [exact Hd|]. split; [congruence|].
  split; [apply open_closed, Hd|].
  split; [apply openRetry_closed, Hd|].
  split.
  - intros n. simpl. unfold bind. now rewrite (open_closed _ Hd).
  - intros c name req res e res1 w1 Hc Hcall He Hpos.
    unfold call, bind. rewrite (conn_call_some _ _ _ _ _ Hc), Hcall. simpl.
    rewrite (connectivity_true _ He).
    rewrite openRetry_closed by exact Hd. simpl.
    destruct (Z.ltb_spec 0 (retry (cli s))); [reflexivity | lia].
Qed.

(** ** Running out of budget *)

Lemma n_dials_failed_rounds n ep d :
  n_dials (failed_rounds (Line := Line) n ep d) = n.
Proof.
  induction n as [|n IH]; [reflexivity|].
  unfold n_dials in *. simpl. now rewrite IH.
Qed.

Lemma openRetry_rounds_all_fail n s :
  done (cli s) = false ->
  dials_fail n (endpoint (cli s)) (backoff (cli s)) (world s) ->
  openRetry_rounds n s =
    Returns None
      {| world := world_after_failures n (endpoint (cli s)) (backoff (cli s)) (world s);
         cli := cli s;
         events := events s ++ failed_rounds n (endpoint (cli s)) (backoff (cli s)) |}.
Proof.
  revert s. induction n as [|n IH]; intros s Hd Hf.
  - simpl. rewrite app_nil_r. now destruct s.
  - simpl in Hf. simpl openRetry_rounds. unfold bind.
    destruct (dial (endpoint (cli s)) (world s)) as [[e|c] w] eqn:Hdial;
      [|contradiction].
    destruct Hf as [He Hf].
    rewrite (open_dial_fails _ _ _ Hd Hdial), He.
    unfold sleep at 1. cbv beta.
    rewrite IH; [|exact Hd|exact Hf].
    simpl. rewrite Hdial. simpl. rewrite <- !app_assoc. reflexivity.
Qed.

Lemma openRetry_exhausted s :
  done (cli s) = false \/ retry (cli s) <= 0 ->
  dials_fail (Z.to_nat (retry (cli s))) (endpoint (cli s)) (backoff (cli s))
    (world s) ->
  openRetry s =
    Returns None
      {| world := world_after_failures (Z.to_nat (retry (cli s)))
                    (endpoint (cli s)) (backoff (cli s)) (world s);
         cli := cli s;
         events := events s ++ failed_rounds (Z.to_nat (retry (cli s)))
                                 (endpoint (cli s)) (backoff (cli s)) |}.
Proof.
  intros Hok Hf. unfold openRetry. destruct Hok as [Hd|Hle].
  - now apply openRetry_rounds_all_fail.
  - replace (Z.to_nat (retry (cli s))) with 0%nat by lia. simpl.
    rewrite app_nil_r. now destruct s.
Qed.

(** C4. When every dial of the budget fails, none of them with [io.EOF],
    and the client is not closed, [openRetry] returns nil: it has dialled
    and waited once per unit of budget and installed nothing.  With a budget
    of zero or less it returns nil at once and the session is untouched. *)
Theorem openRetry_budget_exhausted_returns_nil s :
  done (cli s) = false \/ retry (cli s) <= 0 ->
  dials_fail (Z.to_nat (retry (cli s))) (endpoint (cli s)) (backoff (cli s))
    (world s) ->
  let n := Z.to_nat (retry (cli s)) in
  let rounds := failed_rounds n (endpoint (cli s)) (backoff (cli s)) in
  openRetry s =
    Returns None
      {| world := world_after_failures n (endpoint (cli s)) (backoff (cli s)) (world s);
         cli := cli s;
         events := events s ++ rounds |} /\
  n_dials rounds = n /\
  (retry (cli s) <= 0 -> openRetry s = Returns None s).
Proof.
  intros Hok Hf n rounds. split; [|split].
  - now apply openRetry_exhausted.
  - apply n_dials_failed_rounds.
  - intros Hle. unfold openRetry.
    now replace (Z.to_nat (retry (cli s))) with 0%nat by lia.
Qed.

(** ** Close *)

(** C5, as the code has it.  When [Close] returns, a second [Close] returns
    too; it hands back whatever closing the same connection once more
    reports (the client adds nothing and hides nothing), and it leaves the
    fields of the client as the first [Close] left them: the flag set, the
    connection and the settings untouched. *)
Theorem Close_twice_same_client s r1 s1 :
  Close s = Returns r1 s1 ->
  exists c r2 s2,
    conn (cli s) = Some c /\
    cli s1 = set_done (cli s) /\
    Close s1 = Returns r2 s2 /\
    r2 = fst (conn_Close c (world s1)) /\
    world s2 = snd (conn_Close c (world s1)) /\
    cli s2 = cli s1 /\
    events s2 = events s1 ++ [EvClose c].
Proof.
  unfold Close. simpl. intros H.
  destruct (conn (cli s)) as [c|] eqn:Hc; [|discriminate].
  destruct (conn_Close c (world s)) as [err w] eqn:Hclose.
  injection H as <- <-. simpl. rewrite Hc.
  destruct (conn_Close c w) as [err2 w2] eqn:Hclose2.
  exists c, err2, (record (EvClose c)
    (with_world w2 (with_cli (set_done (set_done (cli s)))
       (record (EvClose c) (with_world w (with_cli (set_done (cli s)) s)))))).
  repeat split; simpl; rewrite ?Hclose2; reflexivity.
Qed.

(** ** What one call adds to the log *)

Lemma reopen_not_call (mid : list (event (Line := Line))) e :
  forallb is_reopen mid = true -> In e mid -> is_call e = false.
Proof.
  intros H Hin. rewrite forallb_forall in H. specialize (H _ Hin).
  now destruct e.
Qed.

Lemma call_log s name req res :
  exists l,
    events (session_of (call name req res s)) = events s ++ l /\
    (n_calls l <= 2)%nat /\ calls_of name req l.
Proof.
  unfold call, bind.
  destruct (conn (cli s)) as [c|] eqn:Hc.
  2:{ unfold conn_call. rewrite Hc. exists []. simpl. rewrite app_nil_r.
      repeat split; [unfold n_calls; simpl; lia | intros e []]. }
  rewrite (conn_call_some _ _ _ _ _ Hc).
  destruct (conn_Call c name req res (world s)) as [[err res1] w1]. simpl.
  set (s1 := record (EvCall c name req) (with_world w1 s)).
  assert (Hone : exists l, events s1 = events s ++ l /\
                   (n_calls l <= 2)%nat /\ calls_of name req l).
  { exists [EvCall c name req]. repeat split; [unfold n_calls; simpl; lia|].
    intros e [<-|[]] _. now exists c. }
  destruct err as [e|]; [|exact Hone].
  destruct (negb (is_ErrClosed e) && negb (is_ErrUnexpectedEOF e)); [exact Hone|].
  destruct (openRetry_returns s1) as (err2 & s2 & Hopen & Hre). rewrite Hopen.
  destruct Hre as (mid & Hev & Hq & _).
  assert (Htwo : exists l, events s2 = events s ++ l /\
                   (n_calls l <= 1)%nat /\ calls_of name req l).
  { exists (EvCall c name req :: mid). rewrite Hev. subst s1. simpl.
    rewrite <- app_assoc. repeat split.
    - change (EvCall c name req :: mid) with ([EvCall c name req] ++ mid).
      rewrite n_calls_app, (reopen_no_calls _ Hq). unfold n_calls. simpl. lia.
    - intros ev [<-|Hin] Hev'; [now exists c|].
      rewrite (reopen_not_call _ _ Hq Hin) in Hev'. discriminate. }
  destruct Htwo as (l & Hl & Hn & Hc2).
  destruct err2 as [e2|].
  { exists l. repeat split; [exact Hl | lia | exact Hc2]. }
  unfold conn_call. destruct (conn (cli s2)) as [c'|].
  2:{ exists l. repeat split; [exact Hl | lia | exact Hc2]. }
  destruct (conn_Call c' name req res1 (world s2)) as [r w2]. simpl.
  exists (l ++ [EvCall c' name req]). rewrite Hl, <- app_assoc.
  repeat split.
  - rewrite n_calls_app. unfold n_calls in *. simpl. lia.
  - intros ev Hin Hev'. apply in_app_or in Hin as [Hin|[<-|[]]];
      [now apply Hc2 | now exists c'].
Qed.

Lemma call_connected_returns s c name req res :
  conn (cli s) = Some c ->
  exists r s', call name req res s = Returns r s'.
Proof.
  intros Hc. unfold call, bind. rewrite (conn_call_some _ _ _ _ _ Hc).
  destruct (conn_Call c name req res (world s)) as [[err res1] w1]. simpl.
  destruct err as [e|]; [|now eexists _, _].
  destruct (negb (is_ErrClosed e) && negb (is_ErrUnexpectedEOF e));
    [now eexists _, _|].
  set (s1 := record (EvCall c name req) (with_world w1 s)).
  destruct (openRetry_returns s1) as (err2 & s2 & Hopen & Hre). rewrite Hopen.
  destruct err2 as [e2|]; [now eexists _, _|].
  destruct Hre as (_ & _ & _ & _ & _ & _ & _ & Hconn).
  destruct (conn (cli s2)) as [c'|] eqn:Hc2.
  - rewrite (conn_call_some _ _ _ _ _ Hc2). now eexists _, _.
  - exfalso. apply Hconn; [|reflexivity]. subst s1. simpl. rewrite Hc. discriminate.
Qed.

Lemma returning_error_session
    (m : M (Line := Line) (World := World) (option error * result (Config := Config))) s :
  session_of (returning_error m s) = session_of (m s).
Proof.
  unfold returning_error, bind. destruct (m s) as [[err r] s'|s']; reflexivity.
Qed.

(** ** Save *)

Lemma ReadAll_from_spec r buf :
  ReadAll_from buf r = (buf ++ reader_bytes r, reader_error r).
Proof.
  revert buf. induction r as [e|chunk rest IH]; intros buf; simpl.
  - rewrite app_nil_r. now destruct (is_EOF e).
  - now rewrite IH, app_assoc.
Qed.

Lemma ReadAll_spec file :
  ReadAll file = (reader_bytes file, reader_error file).
Proof. unfold ReadAll. now rewrite ReadAll_from_spec. Qed.

Lemma Save_cases id mime file s :
  Save id mime file s =
    match reader_error file with
    | Some e => Returns (Some e) s
    | None =>
        returning_error
          (call methodSave
             (ReqSave {| save_ID := id; save_Mime := mime;
                         save_Data := reader_bytes file |}) ResNil) s
    end.
Proof.
  unfold Save. rewrite ReadAll_spec. now destruct (reader_error file).
Qed.


(** ** The Peer interface *)

(** C6, as the code has it.  Whenever the client has a method for a method
    of [Peer], there is a method-name constant for it, one of "next",
    "notify", "update", "log" and "save", and the method is one invocation of
    [call] with that name (for [Save], unless reading the stream failed, in
    which case nothing is sent): it adds at most two attempts to the log,
    all of them calls of that name.  [Extend] is not among them. *)
Theorem Client_methods_go_through_call (p : PeerCall) m s :
  Client_method p = Some m ->
  exists name,
    method_name p = Some name /\
    In name [methodNext; methodNotify; methodUpdate; methodLog; methodSave] /\
    (forall id, p <> PeerExtend id) /\
    ((exists req res,
        session_of (m s) = session_of (call name req res s) /\
        exists l, events (session_of (m s)) = events s ++ l /\
                  (n_calls l <= 2)%nat /\ calls_of name req l) \/
     (exists id mime file e,
        p = PeerSave id mime file /\ reader_error file = Some e /\
        m s = Returns (Some e) s)).
Proof.
  destruct p as [|id|id|id state|id mime file|id line]; simpl;
    intros H; try discriminate; injection H as <-.
  - exists methodNext. split; [reflexivity|]. split; [simpl; tauto|].
    split; [discriminate|]. left.
    exists ReqNil, (ResPipeline zeroPipeline).
    assert (E : session_of (error_of Next s) =
                session_of (call methodNext ReqNil (ResPipeline zeroPipeline) s)).
    { unfold error_of, Next, bind.
      now destruct (call methodNext ReqNil (ResPipeline zeroPipeline) s)
        as [[err r] s'|s']. }
    split; [exact E|]. rewrite E. apply call_log.
  - exists methodNotify. split; [reflexivity|]. split; [simpl; tauto|].
    split; [discriminate|]. left.
    exists (ReqString id), (ResBool false).
    assert (E : session_of (error_of (Notify id) s) =
                session_of (call methodNotify (ReqString id) (ResBool false) s)).
    { unfold error_of, Notify, bind.
      now destruct (call methodNotify (ReqString id) (ResBool false) s)
        as [[err r] s'|s']. }
    split; [exact E|]. rewrite E. apply call_log.
  - exists methodUpdate. split; [reflexivity|]. split; [simpl; tauto|].
    split; [discriminate|]. left. eexists _, _.
    unfold Update. rewrite returning_error_session.
    split; [reflexivity | apply call_log].
  - exists methodSave. split; [reflexivity|]. split; [simpl; tauto|].
    split; [discriminate|].
    pose proof (Save_cases id mime file s) as Hs.
    destruct (reader_error file) as [e|] eqn:He.
    + right. now exists id, mime, file, e.
    + left. eexists _, _. rewrite Hs, returning_error_session.
      split; [reflexivity | apply call_log].
  - exists methodLog. split; [reflexivity|]. split; [simpl; tauto|].
    split; [discriminate|]. left. eexists _, _.
    unfold Log. rewrite returning_error_session.
    split; [reflexivity | apply call_log].
Qed.

(** ** Construction *)

Lemma openRetry_first_dial_succeeds s c w :
  done (cli s) = false -> 0 < retry (cli s) ->
  dial (endpoint (cli s)) (world s) = (inr c, w) ->
  openRetry s =
    Returns None
      (with_cli (set_conn c (cli s))
         (record (EvDial (endpoint (cli s)) (Some c)) (with_world w s))).
Proof.
  intros Hd Hpos Hdial. unfold openRetry.
  destruct (Z.to_nat (retry (cli s))) as [|n] eqn:Hn; [lia|].
  simpl. unfold bind. now rewrite (open_dial_succeeds _ _ _ Hd Hdial).
Qed.

Lemma openRetry_second_dial_succeeds s e w1 c w2 :
  done (cli s) = false -> 1 < retry (cli s) ->
  dial (endpoint (cli s)) (world s) = (inl e, w1) ->
  is_EOF e = false ->
  dial (endpoint (cli s)) (after (backoff (cli s)) w1) = (inr c, w2) ->
  openRetry s =
    Returns None
      {| world := w2; cli := set_conn c (cli s);
         events := events s ++ [EvDial (endpoint (cli s)) None; EvSleep (backoff (cli s));
                                EvDial (endpoint (cli s)) (Some c)] |}.
Proof.
  intros Hd Hpos Hdial He Hdial2. unfold openRetry.
  destruct (Z.to_nat (retry (cli s))) as [|[|n]] eqn:Hn; [lia|lia|].
  simpl. unfold bind. rewrite (open_dial_fails _ _ _ Hd Hdial), He.
  unfold sleep at 1. cbv beta.
  rewrite (open_dial_succeeds _ c w2); [| exact Hd | exact Hdial2].
  unfold ret, with_cli, record, with_world. simpl.
  rewrite <- !app_assoc. reflexivity.
Qed.

(** C8. Without options the client is built with a budget of
    [2^31 - 1] rounds and a backoff of ten seconds (ten thousand million
    nanoseconds), and [NewClient] is [openRetry] on that client: when the
    first dial succeeds the connection is installed after this one dial, and
    when it fails the constructor waits ten seconds and dials again. *)
Theorem NewClient_defaults ep (w : World) :
  defaultRetryClount = 2 ^ 31 - 1 /\
  defaultBackoff = 10 * 1000000000 /\
  NewClient ep [] w =
    openRetry {| world := w;
                 cli := {| conn := None; done := false; retry := 2 ^ 31 - 1;
                           backoff := 10 * Second; endpoint := ep |};
                 events := [] |} /\
  (forall c w1,
      dial ep w = (inr c, w1) ->
      NewClient ep [] w =
        Returns None
          {| world := w1;
             cli := {| conn := Some c; done := false; retry := 2 ^ 31 - 1;
                       backoff := 10 * Second; endpoint := ep |};
             events := [EvDial ep (Some c)] |}) /\
  (forall e w1 c w2,
      dial ep w = (inl e, w1) -> is_EOF e = false ->
      dial ep (after (10 * Second) w1) = (inr c, w2) ->
      NewClient ep [] w =
        Returns None
          {| world := w2;
             cli := {| conn := Some c; done := false; retry := 2 ^ 31 - 1;
                       backoff := 10 * Second; endpoint := ep |};
             events := [EvDial ep None; EvSleep (10 * Second); EvDial ep (Some c)] |}).
Proof.
  split; [reflexivity|]. split; [reflexivity|]. split; [reflexivity|]. split.
  - intros c w1 Hdial. unfold NewClient, apply_opts, fold_left.
    rewrite (openRetry_first_dial_succeeds _ c w1);
      [reflexivity | reflexivity | reflexivity | exact Hdial].
  - intros e w1 c w2 Hdial He Hdial2. unfold NewClient, apply_opts, fold_left.
    rewrite (openRetry_second_dial_succeeds _ e w1 c w2);
      [reflexivity | reflexivity | reflexivity | exact Hdial | exact He
      | exact Hdial2].
Qed.

(** ** No connection *)

(** C10. With no connection installed, [Close] sets the flag and then
    panics on the nil pointer, and every [call] panics before anything is
    sent; with a connection installed both return.  [NewClient] can hand out
    such a client together with a nil error: whenever the budget is zero or
    less, and whenever every dial of the budget fails. *)
Theorem Close_and_call_need_a_connection :
  (forall s,
      match conn (cli s) with
      | None =>
          Close s = Panics (with_cli (set_done (cli s)) s) /\
          forall name req res, call name req res s = Panics s
      | Some c =>
          (exists r s', Close s = Returns r s') /\
          forall name req res, exists r s', call name req res s = Returns r s'
      end) /\
  (forall ep opts (w : World),
      let t := apply_opts opts (newClient ep) in
      conn t = None ->
      done t = false \/ retry t <= 0 ->
      dials_fail (Z.to_nat (retry t)) (endpoint t) (backoff t) w ->
      exists s, NewClient ep opts w = Returns None s /\ conn (cli s) = None).
Proof.
  split.
  - intros s. destruct (conn (cli s)) as [c|] eqn:Hc.
    + split.
      * unfold Close. simpl. rewrite Hc.
        destruct (conn_Close c (world s)) as [err w]. now eexists _, _.
      * intros name req res. now apply (call_connected_returns s c).
    + split.
      * unfold Close. simpl. now rewrite Hc.
      * intros name req res. unfold call, bind, conn_call. now rewrite Hc.
  - intros ep opts w t Hc Hok Hf. unfold NewClient. fold t.
    set (s0 := {| world := w; cli := t; events := [] |}).
    eexists. split; [exact (openRetry_exhausted s0 Hok Hf) | exact Hc].
Qed.

(** ** Goroutines *)

Lemma run_thread_add k1 k2 p s :
  run_thread (k1 + k2) p s =
    let '(p', s') := run_thread k1 p s in run_thread k2 p' s'.
Proof.
  revert p s. induction k1 as [|k1 IH]; intros p s; simpl; [reflexivity|].
  destruct (thread_step p s) as [p' s']. apply IH.
Qed.

(** The rounds of [openRetry], step by step. *)
Lemma run_thread_loop n : forall i s name req res,
  0 <= i -> n = Z.to_nat (retry (cli s) - i) ->
  exists k,
    run_thread k (AtLoop i name req res) s =
      match openRetry_rounds n s with
      | Returns None s' => (AtReplay name req res, s')
      | Returns (Some e) s' => (Returned (Some e, res), s')
      | Panics s' => (Panicked, s')
      end.
Proof.
  induction n as [|n IH]; intros i s name req res Hi Hn.
  - exists 1%nat. simpl.
    destruct (Z.ltb_spec i (retry (cli s))); [lia | reflexivity].
  - simpl openRetry_rounds. unfold bind.
    destruct (open_returns s) as (r & s1 & Ho & R1).
    assert (Hlt : (i <? retry (cli s)) = true) by (apply Z.ltb_lt; lia).
    destruct r as [e|].
    + destruct (is_EOF e) eqn:He.
      * exists 1%nat. simpl. now rewrite Hlt, Ho, He.
      * destruct (sleep_reopened s1) as (s2 & Hs & R2).
        pose proof (reopened_trans _ _ _ R1 R2) as (_ & _ & _ & _ & Hr & _).
        destruct (IH (i + 1) s2 name req res) as (k & Hk); [lia | lia |].
        exists (S (S k)). simpl run_thread.
        rewrite Hlt, Ho, He. cbn [thread_step]. rewrite Hs. exact Hk.
    + exists 1%nat. simpl. now rewrite Hlt, Ho.
Qed.

(** A goroutine left to itself computes [call]. *)
Lemma run_thread_call s name req res :
  exists k, run_thread k (AtCall name req res) s = pc_of (call name req res s).
Proof.
  unfold call, bind.
  destruct (conn_call name req res s) as [[err res1] s1|s1] eqn:Hcall.
  2:{ exists 1%nat. simpl. now rewrite Hcall. }
  destruct err as [e|].
  2:{ exists 1%nat. simpl. now rewrite Hcall. }
  destruct (negb (is_ErrClosed e) && negb (is_ErrUnexpectedEOF e)) eqn:He.
  { exists 1%nat. simpl. now rewrite Hcall, He. }
  destruct (run_thread_loop (Z.to_nat (retry (cli s1))) 0 s1 name req res1)
    as (k & Hk); [lia | f_equal; lia |].
  fold (openRetry s1) in Hk.
  destruct (openRetry s1) as [[e2|] s2|s2].
  - exists (S k). simpl. now rewrite Hcall, He.
  - exists (S (k + 1)). simpl run_thread at 1. rewrite Hcall, He.
    rewrite run_thread_add, Hk. simpl.
    now destruct (conn_call name req res1 s2).
  - exists (S k). simpl. now rewrite Hcall, He.
Qed.

Lemma open_not_closed_dials s :
  done (cli s) = false ->
  exists r s', open s = Returns r s' /\
    n_dials (events s') = S (n_dials (events s)) /\
    done (cli s') = false /\ retry (cli s') = retry (cli s).
Proof.
  intros Hd. unfold open. rewrite Hd.
  destruct (dial (endpoint (cli s)) (world s)) as [[e|c] w];
    eexists _, _; (split; [reflexivity|]); simpl;
    rewrite n_dials_app; unfold n_dials; simpl; repeat split; auto; lia.
Qed.

(** One step of a goroutine that is past its first attempt: the flag and
    the budget stay, and the log has a dial for the goroutine as soon as it
    has left the head of the first round. *)
Lemma thread_step_dials p s :
  past_first_attempt p = true ->
  done (cli s) = false -> 0 < retry (cli s) ->
  let '(p', s') := thread_step p s in
  past_first_attempt p' = true /\
  done (cli s') = false /\ retry (cli s') = retry (cli s) /\
  (n_dials (events s) <= n_dials (events s'))%nat /\
  (n_dials (events s) + dialled p' <= n_dials (events s') + dialled p)%nat.
Proof.
  intros Hp Hd Hr.
  destruct p as [name req res|i name req res|i name req res|name req res|r|];
    simpl in Hp; try discriminate; simpl thread_step.
  - apply Z.leb_le in Hp.
    destruct (Z.ltb_spec i (retry (cli s))) as [Hlt|Hge].
    + destruct (open_not_closed_dials s Hd) as (r & s' & Ho & Hn & Hd' & Hr').
      rewrite Ho. destruct r as [e|]; [destruct (is_EOF e)|]; simpl;
        try (apply Z.leb_le in Hp as Hp'; rewrite Hp');
        repeat split; auto; try lia;
        destruct (i <=? 0); lia.
    + simpl. destruct (Z.leb_spec i 0); [lia|]. repeat split; auto.
  - apply Z.leb_le in Hp. simpl.
    destruct (Z.leb_spec (i + 1) 0); [lia|].
    rewrite n_dials_app. unfold n_dials. simpl.
    repeat split; auto; try lia.
  - pose proof (conn_call_frame s name req res) as [Hc Hn].
    destruct (conn_call name req res s) as [r s'|s']; simpl in *;
      rewrite Hc, Hn; repeat split; auto.
  - simpl. repeat split; auto.
  - simpl. repeat split; auto.
Qed.

Lemma run_dials sched : forall (c : Conf) base,
  past_first_attempt (pcA c) = true -> past_first_attempt (pcB c) = true ->
  done (cli (shared c)) = false -> 0 < retry (cli (shared c)) ->
  (base + dialled (pcA c) + dialled (pcB c) <= n_dials (events (shared c)))%nat ->
  (base + dialled (pcA (run sched c)) + dialled (pcB (run sched c))
     <= n_dials (events (shared (run sched c))))%nat.
Proof.
  induction sched as [|t sched IH]; intros c base HA HB Hd Hr Hn; [exact Hn|].
  unfold run in *. simpl fold_left. apply IH; unfold sched_step;
    destruct (is_Panicked (pcA c) || is_Panicked (pcB c)); auto;
    destruct t.
  all: try (pose proof (thread_step_dials (pcA c) (shared c) HA Hd Hr) as H;
            destruct (thread_step (pcA c) (shared c)) as [p' s'];
            destruct H as (H1 & H2 & H3 & H4 & H5); simpl; auto; lia).
  all: try (pose proof (thread_step_dials (pcB c) (shared c) HB Hd Hr) as H;
            destruct (thread_step (pcB c) (shared c)) as [p' s'];
            destruct H as (H1 & H2 & H3 & H4 & H5); simpl; auto; lia).
Qed.

Lemma installed_app (cur : option Conn) (l1 l2 : list (event (Line := Line))) :
  installed cur (l1 ++ l2) = installed (installed cur l1) l2.
Proof.
  revert cur. induction l1 as [|e l1 IH]; intros cur; [reflexivity|].
  destruct e as [ep [c|]|d|c name req|c]; simpl; apply IH.
Qed.

(** A step only adds to the log. *)
Lemma thread_step_extends p s :
  exists l, events (snd (thread_step p s)) = events s ++ l.
Proof.
  assert (Hnil : exists l, events s = events s ++ l)
    by (exists []; now rewrite app_nil_r).
  assert (Hcall : forall name req res,
            exists l,
              events (session_of (conn_call name req res s)) = events s ++ l).
  { intros name req res. unfold conn_call.
    destruct (conn (cli s)) as [c|]; [|exact Hnil].
    destruct (conn_Call c name req res (world s)) as [r w].
    now exists [EvCall c name req]. }
  destruct p as [name req res|i name req res|i name req res|name req res|r|];
    simpl thread_step; try exact Hnil.
  - destruct (Hcall name req res) as (l & H1).
    destruct (conn_call name req res s) as [[[e|] res1] s'|s']; simpl in *;
      [destruct (negb (is_ErrClosed e) && negb (is_ErrUnexpectedEOF e))| |];
      exists l; auto.
  - destruct (i <? retry (cli s)); [|exact Hnil].
    destruct (open_returns s) as (r & s' & Ho & (mid & Hev & _)). rewrite Ho.
    exists mid. destruct r as [e|]; [destruct (is_EOF e)|]; exact Hev.
  - now exists [EvSleep (backoff (cli s))].
  - destruct (Hcall name req res) as (l & H1).
    destruct (conn_call name req res s) as [r s'|s']; exists l; auto.
Qed.

Lemma run_extends sched : forall (c : Conf),
  exists l, events (shared (run sched c)) = events (shared c) ++ l.
Proof.
  induction sched as [|t sched IH]; intros c.
  - exists []. simpl. now rewrite app_nil_r.
  - unfold run in *. simpl fold_left.
    assert (Hstep : exists l,
              events (shared (sched_step c t)) = events (shared c) ++ l).
    { unfold sched_step.
      destruct (is_Panicked (pcA c) || is_Panicked (pcB c)).
      - exists []. now rewrite app_nil_r.
      - destruct t.
        + pose proof (thread_step_extends (pcA c) (shared c)) as H.
          now destruct (thread_step (pcA c) (shared c)).
        + pose proof (thread_step_extends (pcB c) (shared c)) as H.
          now destruct (thread_step (pcB c) (shared c)). }
    destruct Hstep as (l1 & E1).
    destruct (IH (sched_step c t)) as (l2 & E2).
    exists (l1 ++ l2). now rewrite E2, E1, app_assoc.
Qed.

(** C9, as the code has it.  Two calls have both failed with a connectivity
    error and both stand at the head of [openRetry]; the client is open and
    has a budget.  However the two are scheduled, once both have returned
    the log has grown by at least two dials: each call went through its own
    reconnect, neither waited for the other's. *)
Theorem concurrent_calls_reconnect_separately
    (sched : list tid) s nameA reqA resA nameB reqB resB :
  done (cli s) = false -> 0 < retry (cli s) ->
  let c := run sched {| shared := s;
                        pcA := AtLoop 0 nameA reqA resA;
                        pcB := AtLoop 0 nameB reqB resB |} in
  is_Returned (pcA c) = true -> is_Returned (pcB c) = true ->
  exists l,
    events (shared c) = events s ++ l /\
    (2 <= n_dials l)%nat.
Proof.
  intros Hd Hr c HA HB.
  pose proof (run_dials sched
                {| shared := s; pcA := AtLoop 0 nameA reqA resA;
                   pcB := AtLoop 0 nameB reqB resB |}
                (n_dials (events s)) eq_refl eq_refl Hd Hr) as H.
  destruct (run_extends sched
              {| shared := s; pcA := AtLoop 0 nameA reqA resA;
                 pcB := AtLoop 0 nameB reqB resB |}) as (l & El).
  fold c in H, El. simpl in H, El.
  exists l. split; [exact El|].
  rewrite El, n_dials_app in H.
  destruct (pcA c); try discriminate. destruct (pcB c); try discriminate.
  simpl in H. lia.
Qed.

End RpcFacts.

(** * Further properties of the client *)

Section RpcMore.

Context {Line Config World : Type}.
Context {T : Transport (Line := Line) (Config := Config) World}.

Implicit Types (s : Session (Line := Line) (World := World)).

(** ** A call that goes through *)

(** X1. A call whose first attempt succeeds returns nil and the result of
    that attempt; the log grows by that one call, nothing is dialled, and
    the client is as it was.  The closed flag plays no part: [call] does
    not look at it before the attempt. *)
Theorem call_success_single_attempt s c name req res res1 w1 :
  conn (cli s) = Some c ->
  conn_Call c name req res (world s) = ((None, res1), w1) ->
  exists s',
    call name req res s = Returns (None, res1) s' /\
    events s' = events s ++ [EvCall c name req] /\
    n_dials (events s') = n_dials (events s) /\
    cli s' = cli s /\ world s' = w1.
Proof.
  intros Hc Hcall.
  exists (record (EvCall c name req) (with_world w1 s)).
  split; [|repeat split].
  - unfold call, bind. now rewrite (conn_call_some _ _ _ _ _ Hc), Hcall.
  - simpl. rewrite n_dials_app. unfold n_dials. simpl. lia.
Qed.

(** ** Rounds of openRetry *)

Lemma session_after_failures_cli k s :
  cli (session_after_failures k s) = cli s.
Proof. reflexivity. Qed.

(** Rounds that fail to dial are gone through one by one. *)
Lemma openRetry_rounds_skip k n s :
  done (cli s) = false ->
  dials_fail k (endpoint (cli s)) (backoff (cli s)) (world s) ->
  openRetry_rounds (k + n) s = openRetry_rounds n (session_after_failures k s).
Proof.
  revert s. induction k as [|k IH]; intros s Hd Hf.
  - simpl. unfold session_after_failures. simpl. rewrite app_nil_r.
    now destruct s.
  - simpl in Hf. simpl openRetry_rounds. unfold bind.
    destruct (dial (endpoint (cli s)) (world s)) as [[e|c] w] eqn:Hdial;
      [|contradiction].
    destruct Hf as [He Hf].
    rewrite (open_dial_fails _ _ _ Hd Hdial), He.
    unfold sleep at 1. cbv beta.
    rewrite IH; [|exact Hd|exact Hf].
    unfold session_after_failures. simpl. rewrite Hdial. simpl.
    now rewrite <- !app_assoc.
Qed.

(** X2. When the first [k] dials fail (none with [io.EOF]), [k] is within
    the budget and the next dial succeeds, [openRetry] returns nil with the
    new connection installed: it has dialled [k + 1] times and waited the
    backoff [k] times, once after each failure and not after the success. *)
Theorem openRetry_succeeds_after_failures (k : nat) s c w :
  done (cli s) = false ->
  Z.of_nat k < retry (cli s) ->
  dials_fail k (endpoint (cli s)) (backoff (cli s)) (world s) ->
  dial (endpoint (cli s)) (world (session_after_failures k s)) = (inr c, w) ->
  openRetry s =
    Returns None
      {| world := w; cli := set_conn c (cli s);
         events := events s
                   ++ failed_rounds k (endpoint (cli s)) (backoff (cli s))
                   ++ [EvDial (endpoint (cli s)) (Some c)] |} /\
  n_sleeps (failed_rounds (Line := Line) k (endpoint (cli s)) (backoff (cli s))) = k.
Proof.
  intros Hd Hk Hf Hdial. split.
  - unfold openRetry.
    replace (Z.to_nat (retry (cli s)))
      with (k + S (Z.to_nat (retry (cli s)) - S k))%nat by lia.
    rewrite (openRetry_rounds_skip _ _ _ Hd Hf).
    simpl openRetry_rounds. unfold bind.
    rewrite (open_dial_succeeds _ c w); [| exact Hd | exact Hdial].
    unfold ret, with_cli, record, with_world, session_after_failures. simpl.
    now rewrite <- app_assoc.
  - clear. induction k as [|k IH]; [reflexivity|].
    unfold n_sleeps in *. simpl. now rewrite IH.
Qed.

(** X3. A dial that fails with [io.EOF] ends [openRetry] on the spot, open
    client or not: after [k] ordinary failures within the budget, the round
    whose dial fails with [io.EOF] returns that error without waiting and
    without touching the connection. *)
Theorem openRetry_stops_on_dial_EOF (k : nat) s w :
  done (cli s) = false ->
  Z.of_nat k < retry (cli s) ->
  dials_fail k (endpoint (cli s)) (backoff (cli s)) (world s) ->
  dial (endpoint (cli s)) (world (session_after_failures k s)) = (inl EOF, w) ->
  openRetry s =
    Returns (Some EOF)
      {| world := w; cli := cli s;
         events := events s
                   ++ failed_rounds k (endpoint (cli s)) (backoff (cli s))
                   ++ [EvDial (endpoint (cli s)) None] |}.
Proof.
  intros Hd Hk Hf Hdial. unfold openRetry.
  replace (Z.to_nat (retry (cli s)))
    with (k + S (Z.to_nat (retry (cli s)) - S k))%nat by lia.
  rewrite (openRetry_rounds_skip _ _ _ Hd Hf).
  simpl openRetry_rounds. unfold bind.
  rewrite (open_dial_fails _ EOF w); [| exact Hd | exact Hdial].
  unfold ret, with_cli, record, with_world, session_after_failures. simpl.
  now rewrite <- app_assoc.
Qed.

Lemma is_EOF_eq e : is_EOF e = true -> e = EOF.
Proof. now destruct e. Qed.

Lemma open_error_keeps_conn s e s' :
  open s = Returns (Some e) s' -> conn (cli s') = conn (cli s).
Proof.
  unfold open. destruct (done (cli s)); [now intros [= _ <-]|].
  destruct (dial (endpoint (cli s)) (world s)) as [[e'|c] w];
    [now intros [= _ <-] | discriminate].
Qed.

Lemma openRetry_rounds_error n : forall s e s',
  openRetry_rounds n s = Returns (Some e) s' ->
  e = EOF /\ conn (cli s') = conn (cli s).
Proof.
  induction n as [|n IH]; intros s e s'; [discriminate|].
  simpl. unfold bind. destruct (open s) as [[e1|] s1|s1] eqn:Ho;
    try discriminate.
  pose proof (open_error_keeps_conn _ _ _ Ho) as Hc1.
  destruct (is_EOF e1) eqn:He1.
  - intros [= <- <-]. split; [now apply is_EOF_eq | exact Hc1].
  - unfold sleep at 1. cbv beta. intros H. apply IH in H as [-> Hc].
    split; [reflexivity|]. simpl in Hc. congruence.
Qed.

(** X4. The only error [openRetry] ever returns is [io.EOF]: a dial error
    of any other kind is waited out and never handed to the caller.  When
    it returns that error, the connection is the one held before. *)
Theorem openRetry_error_is_EOF s e s' :
  openRetry s = Returns (Some e) s' ->
  e = EOF /\ conn (cli s') = conn (cli s).
Proof. apply openRetry_rounds_error. Qed.

Lemma n_dials_cons_app (l : list (event (Line := Line))) e :
  n_dials (e :: l) = (n_dials [e] + n_dials l)%nat.
Proof. change (e :: l) with ([e] ++ l). apply n_dials_app. Qed.

Lemma n_sleeps_app (l1 l2 : list (event (Line := Line))) :
  n_sleeps (l1 ++ l2) = (n_sleeps l1 + n_sleeps l2)%nat.
Proof. unfold n_sleeps. now rewrite filter_app, length_app. Qed.

Lemma n_closes_app (l1 l2 : list (event (Line := Line))) :
  n_closes (l1 ++ l2) = (n_closes l1 + n_closes l2)%nat.
Proof. unfold n_closes. now rewrite filter_app, length_app. Qed.

Lemma openRetry_rounds_budget n : forall s,
  exists r s' mid,
    openRetry_rounds n s = Returns r s' /\
    events s' = events s ++ mid /\
    (n_dials mid <= n)%nat /\ (n_sleeps mid <= n_dials mid)%nat /\
    n_calls mid = 0%nat /\ n_closes mid = 0%nat.
Proof.
  induction n as [|n IH]; intros s.
  - exists None, s, []. rewrite app_nil_r. repeat split; auto.
  - simpl. unfold bind, open.
    destruct (done (cli s)).
    { exists (Some EOF), s, []. rewrite app_nil_r. simpl.
      repeat split; auto. unfold n_dials. simpl. lia. }
    destruct (dial (endpoint (cli s)) (world s)) as [[e|c] w].
    + destruct (is_EOF e).
      * eexists _, _, [_]. split; [reflexivity|]. simpl.
        repeat split; auto; unfold n_dials, n_sleeps; simpl; lia.
      * unfold sleep at 1. cbv beta.
        match goal with |- context [openRetry_rounds n ?x] =>
          destruct (IH x) as (r & s' & mid & Hr & Hev & Hd & Hs & Hc & Hk) end.
        rewrite Hr.
        exists r, s', (EvDial (endpoint (cli s)) None
                         :: EvSleep (backoff (cli s)) :: mid).
        split; [reflexivity|]. split.
        { rewrite Hev. simpl. now rewrite <- !app_assoc. }
        unfold n_dials, n_sleeps, n_calls, n_closes in *. simpl.
        repeat split; auto; lia.
    + eexists _, _, [_]. split; [reflexivity|]. simpl.
      repeat split; auto; unfold n_dials, n_sleeps; simpl; lia.
Qed.

(** X5. [openRetry] always returns, and it keeps within its budget: it
    dials at most [retry] times (never, when [retry] is zero or less), waits
    at most once per dial, and neither calls nor closes anything. *)
Theorem openRetry_within_budget s :
  exists r s' mid,
    openRetry s = Returns r s' /\
    events s' = events s ++ mid /\
    Z.of_nat (n_dials mid) <= Z.max 0 (retry (cli s)) /\
    (n_sleeps mid <= n_dials mid)%nat /\
    n_calls mid = 0%nat /\ n_closes mid = 0%nat.
Proof.
  destruct (openRetry_rounds_budget (Z.to_nat (retry (cli s))) s)
    as (r & s' & mid & Hr & Hev & Hd & Hs & Hc & Hk).
  exists r, s', mid. repeat split; auto. lia.
Qed.

(** X6. When the reconnect runs out of budget, [call] replays on the
    connection that has just failed: after a connectivity error, if every
    dial of the budget fails (or the budget is zero or less), the second
    attempt goes to the same connection as the first and its outcome is what
    the caller gets. *)
Theorem call_replays_on_old_connection s c name req res e res1 w1 :
  conn (cli s) = Some c ->
  conn_Call c name req res (world s) = ((Some e, res1), w1) ->
  connectivity e = true ->
  done (cli s) = false \/ retry (cli s) <= 0 ->
  dials_fail (Z.to_nat (retry (cli s))) (endpoint (cli s)) (backoff (cli s)) w1 ->
  let n := Z.to_nat (retry (cli s)) in
  let w2 := world_after_failures n (endpoint (cli s)) (backoff (cli s)) w1 in
  exists s',
    call name req res s = Returns (fst (conn_Call c name req res1 w2)) s' /\
    events s' = events s ++ [EvCall c name req]
                  ++ failed_rounds n (endpoint (cli s)) (backoff (cli s))
                  ++ [EvCall c name req] /\
    cli s' = cli s /\
    world s' = snd (conn_Call c name req res1 w2).
Proof.
  intros Hc Hcall He Hok Hf n w2.
  set (s1 := record (EvCall c name req) (with_world w1 s)).
  pose proof (openRetry_exhausted s1 Hok Hf) as Hopen.
  eexists. split; [|split; [|split]].
  - unfold call, bind. rewrite (conn_call_some _ _ _ _ _ Hc), Hcall. simpl.
    rewrite (connectivity_true _ He). fold s1. rewrite Hopen.
    rewrite (conn_call_some _ c); [reflexivity | exact Hc].
  - simpl. now rewrite <- !app_assoc.
  - reflexivity.
  - reflexivity.
Qed.

(** ** What operations keep *)

Lemma settled_refl (t : Client) : settled t t.
Proof. repeat split; auto. Qed.

Lemma settled_trans (t1 t2 t3 : Client) :
  settled t1 t2 -> settled t2 t3 -> settled t1 t3.
Proof.
  intros (R1 & B1 & E1 & D1 & C1) (R2 & B2 & E2 & D2 & C2).
  repeat split; try congruence; auto.
Qed.

Lemma reopened_settled s s' : reopened s s' -> settled (cli s) (cli s').
Proof.
  intros (mid & _ & _ & D & R & B & E & C).
  repeat split; auto. congruence.
Qed.

Lemma conn_call_cli s name req res :
  cli (session_of (conn_call name req res s)) = cli s.
Proof. apply conn_call_frame. Qed.

Lemma call_settled s name req res :
  settled (cli s) (cli (session_of (call name req res s))).
Proof.
  unfold call, bind.
  pose proof (conn_call_cli s name req res) as Hc.
  destruct (conn_call name req res s) as [[err res1] s1|s1]; simpl in Hc;
    rewrite <- Hc; [|apply settled_refl].
  destruct err as [e|]; [|apply settled_refl].
  destruct (negb (is_ErrClosed e) && negb (is_ErrUnexpectedEOF e));
    [apply settled_refl|].
  destruct (openRetry_returns s1) as (err2 & s2 & Hopen & Hre). rewrite Hopen.
  apply reopened_settled in Hre.
  destruct err2 as [e2|]; [exact Hre|].
  now rewrite conn_call_cli.
Qed.

Lemma do_op_settled s o : settled (cli s) (cli (do_op s o)).
Proof.
  destruct o as [| |name req res|]; simpl.
  - destruct (open_returns s) as (r & s' & Ho & Hre). rewrite Ho.
    now apply reopened_settled.
  - destruct (openRetry_returns s) as (r & s' & Ho & Hre). rewrite Ho.
    now apply reopened_settled.
  - apply call_settled.
  - unfold Close. simpl. destruct (conn (cli s)) as [c|] eqn:Hc.
    + destruct (conn_Close c (world s)) as [err w]. simpl.
      repeat split; auto.
    + simpl. repeat split; auto.
Qed.

Lemma ops_settled ops : forall s, settled (cli s) (cli (fold_left do_op ops s)).
Proof.
  induction ops as [|o ops IH]; intros s; [apply settled_refl|].
  simpl. eapply settled_trans; [apply do_op_settled | apply IH].
Qed.

(** X7. Whatever a program does with the client (open, openRetry, calls,
    Close, in any order and number), the budget, the backoff and the
    endpoint stay what they were, and a closed flag that is set stays
    set. *)
Theorem ops_keep_settings (ops : list op) s :
  let s' := fold_left do_op ops s in
  retry (cli s') = retry (cli s) /\
  backoff (cli s') = backoff (cli s) /\
  endpoint (cli s') = endpoint (cli s) /\
  (done (cli s) = true -> done (cli s') = true).
Proof.
  intros s'. destruct (ops_settled ops s) as (R & B & E & D & _).
  repeat split; auto.
Qed.

(** X8. Once a connection is installed, no sequence of operations removes
    it, so nothing panics any more: after any operations on a client that
    has a connection, it still has one, and [Close] and every [call]
    return. *)
Theorem connected_client_never_panics (ops : list op) s c :
  conn (cli s) = Some c ->
  let s' := fold_left do_op ops s in
  (exists c', conn (cli s') = Some c') /\
  (exists r s'', Close s' = Returns r s'') /\
  (forall name req res, exists r s'', call name req res s' = Returns r s'').
Proof.
  intros Hc s'. destruct (ops_settled ops s) as (_ & _ & _ & _ & C).
  fold s' in C.
  destruct (conn (cli s')) as [c'|] eqn:Hc';
    [|exfalso; apply C; [rewrite Hc; discriminate | reflexivity]].
  split; [now exists c'|]. split.
  - unfold Close. simpl. rewrite Hc'.
    destruct (conn_Close c' (world s')) as [err w]. now eexists _, _.
  - intros name req res. now apply (call_connected_returns s' c').
Qed.

(** ** The connection in use *)

Lemma uses_current_app (cur : option Conn) (l1 l2 : list (event (Line := Line))) :
  uses_current cur l1 -> uses_current (installed cur l1) l2 ->
  uses_current cur (l1 ++ l2).
Proof.
  revert cur. induction l1 as [|e l1 IH]; intros cur H1 H2; [exact H2|].
  destruct e as [ep [c|]|d|c name req|c]; simpl in *; auto;
    destruct H1 as [Hc H1]; split; auto.
Qed.

Lemma tracked_refl s : tracked s s [].
Proof. unfold tracked. rewrite app_nil_r. now repeat split. Qed.

Lemma tracked_trans s1 s2 s3 l1 l2 :
  tracked s1 s2 l1 -> tracked s2 s3 l2 -> tracked s1 s3 (l1 ++ l2).
Proof.
  intros (E1 & C1 & U1) (E2 & C2 & U2). unfold tracked.
  rewrite E2, E1, C2, C1, app_assoc, installed_app. repeat split.
  apply uses_current_app; [exact U1 | now rewrite <- C1].
Qed.

Lemma open_tracked s :
  exists l, tracked s (session_of (open s)) l /\ n_closes l = 0%nat.
Proof.
  unfold open. destruct (done (cli s)).
  - exists []. split; [apply tracked_refl | reflexivity].
  - destruct (dial (endpoint (cli s)) (world s)) as [[e|c] w].
    + exists [EvDial (endpoint (cli s)) None]. now repeat split.
    + exists [EvDial (endpoint (cli s)) (Some c)]. now repeat split.
Qed.

Lemma openRetry_rounds_tracked n : forall s,
  exists l, tracked s (session_of (openRetry_rounds n s)) l /\ n_closes l = 0%nat.
Proof.
  induction n as [|n IH]; intros s.
  - exists []. split; [apply tracked_refl | reflexivity].
  - simpl. unfold bind.
    destruct (open_tracked s) as (l1 & T1 & K1).
    destruct (open_returns s) as (r & s1 & Ho & _). rewrite Ho in *.
    simpl in T1.
    destruct r as [e|]; [|now exists l1].
    destruct (is_EOF e); [now exists l1|].
    unfold sleep at 1. cbv beta.
    match goal with |- context [openRetry_rounds n ?x] =>
      destruct (IH x) as (l2 & T2 & K2); set (s2 := x) in * end.
    assert (Ts : tracked s1 s2 [EvSleep (backoff (cli s1))])
      by (subst s2; now repeat split).
    exists (l1 ++ [EvSleep (backoff (cli s1))] ++ l2). split.
    + eapply tracked_trans; [exact T1|].
      eapply tracked_trans; [exact Ts | exact T2].
    + rewrite !n_closes_app, K1, K2. reflexivity.
Qed.

Lemma conn_call_tracked s name req res :
  exists l, tracked s (session_of (conn_call name req res s)) l /\
            n_closes l = 0%nat.
Proof.
  unfold conn_call. destruct (conn (cli s)) as [c|] eqn:Hc.
  - destruct (conn_Call c name req res (world s)) as [r w].
    exists [EvCall c name req]. unfold tracked. simpl. rewrite Hc.
    now repeat split.
  - exists []. split; [apply tracked_refl | reflexivity].
Qed.

Lemma call_tracked s name req res :
  exists l, tracked s (session_of (call name req res s)) l /\
            n_closes l = 0%nat.
Proof.
  unfold call, bind.
  destruct (conn_call_tracked s name req res) as (l1 & T1 & K1).
  destruct (conn_call name req res s) as [[err res1] s1|s1]; simpl in T1;
    [|now exists l1].
  destruct err as [e|]; [|now exists l1].
  destruct (negb (is_ErrClosed e) && negb (is_ErrUnexpectedEOF e));
    [now exists l1|].
  destruct (openRetry_rounds_tracked (Z.to_nat (retry (cli s1))) s1)
    as (l2 & T2 & K2).
  fold (openRetry s1) in T2.
  destruct (openRetry s1) as [[e2|] s2|s2]; simpl in T2.
  - exists (l1 ++ l2). split; [eapply tracked_trans; eauto|].
    now rewrite n_closes_app, K1, K2.
  - destruct (conn_call_tracked s2 name req res1) as (l3 & T3 & K3).
    exists (l1 ++ l2 ++ l3). split.
    + eapply tracked_trans; [exact T1|]. eapply tracked_trans; eauto.
    + now rewrite !n_closes_app, K1, K2, K3.
  - exists (l1 ++ l2). split; [eapply tracked_trans; eauto|].
    now rewrite n_closes_app, K1, K2.
Qed.

Lemma do_op_tracked s o :
  exists l, tracked s (do_op s o) l /\ (n_closes l <= n_close_ops [o])%nat.
Proof.
  destruct o as [| |name req res|]; simpl.
  - destruct (open_tracked s) as (l & Tl & K). exists l. split; [exact Tl | lia].
  - destruct (openRetry_rounds_tracked (Z.to_nat (retry (cli s))) s)
      as (l & Tl & K). exists l. split; [exact Tl | lia].
  - destruct (call_tracked s name req res) as (l & Tl & K).
    exists l. split; [exact Tl | lia].
  - unfold Close. simpl. destruct (conn (cli s)) as [c|] eqn:Hc.
    + destruct (conn_Close c (world s)) as [err w].
      exists [EvClose c]. unfold tracked, n_closes, n_close_ops. simpl.
      rewrite Hc. repeat split; auto.
    + exists []. unfold tracked. simpl. rewrite app_nil_r, Hc.
      repeat split; auto. unfold n_closes. simpl. lia.
Qed.

(** X9. Over any sequence of operations the traffic follows the
    connection: every call and every close recorded went to the connection
    installed by the latest successful dial before it (or to the one held at
    the start), and the connection held at the end is the one the log
    accounts for.  Connections are closed by [Close] alone: the log never
    holds more closes than [Close] was invoked, so the connection a
    reconnect replaces is left as it is. *)
Theorem ops_use_current_connection (ops : list op) s :
  let s' := fold_left do_op ops s in
  exists l,
    events s' = events s ++ l /\
    conn (cli s') = installed (conn (cli s)) l /\
    uses_current (conn (cli s)) l /\
    (n_closes l <= n_close_ops ops)%nat.
Proof.
  revert s. induction ops as [|o ops IH]; intros s; simpl.
  - exists []. rewrite app_nil_r. repeat split; auto.
  - destruct (do_op_tracked s o) as (l1 & T1 & K1).
    destruct (IH (do_op s o)) as (l2 & E2 & C2 & U2 & K2).
    assert (T2 : tracked (do_op s o) (fold_left do_op ops (do_op s o)) l2)
      by now repeat split.
    destruct (tracked_trans _ _ _ _ _ T1 T2) as (E & C & U).
    exists (l1 ++ l2). repeat split; auto.
    rewrite n_closes_app.
    change (o :: ops) with ([o] ++ ops).
    unfold n_close_ops in *. rewrite filter_app, length_app. lia.
Qed.

(** ** Goroutines, again *)

Lemma thread_step_closed p s :
  done (cli s) = true ->
  done (cli (snd (thread_step p s))) = true /\
  n_dials (events (snd (thread_step p s))) = n_dials (events s).
Proof.
  intros Hd.
  assert (Hcall : forall name req res,
            done (cli (session_of (conn_call name req res s))) = true /\
            n_dials (events (session_of (conn_call name req res s)))
              = n_dials (events s)).
  { intros name req res.
    destruct (conn_call_frame s name req res) as [Hc Hn]. now rewrite Hc. }
  destruct p as [name req res|i name req res|i name req res|name req res|r|];
    simpl thread_step; try now split.
  - specialize (Hcall name req res).
    destruct (conn_call name req res s) as [[[e|] res1] s'|s']; simpl in *;
      [destruct (negb (is_ErrClosed e) && negb (is_ErrUnexpectedEOF e))| |];
      exact Hcall.
  - destruct (i <? retry (cli s)); [|now split].
    rewrite (open_closed _ Hd). now split.
  - simpl. split; [exact Hd|]. rewrite n_dials_app. unfold n_dials. simpl. lia.
  - specialize (Hcall name req res).
    destruct (conn_call name req res s) as [r s'|s']; exact Hcall.
Qed.

(** X10. Once the closed flag is set, goroutines that are inside [call]
    dial no more, wherever they stand (before the attempt, in a round of the
    retry loop, in a backoff wait, before the replay) and however they are
    scheduled; the flag stays set. *)
Theorem closed_flag_stops_concurrent_dials (sched : list tid) (c : Conf) :
  done (cli (shared c)) = true ->
  done (cli (shared (run sched c))) = true /\
  n_dials (events (shared (run sched c))) = n_dials (events (shared c)).
Proof.
  revert c. induction sched as [|t sched IH]; intros c Hd; [now split|].
  unfold run in *. simpl fold_left.
  assert (Hstep : done (cli (shared (sched_step c t))) = true /\
                  n_dials (events (shared (sched_step c t)))
                    = n_dials (events (shared c))).
  { unfold sched_step.
    destruct (is_Panicked (pcA c) || is_Panicked (pcB c)); [now split|].
    destruct t.
    - pose proof (thread_step_closed (pcA c) (shared c) Hd) as H.
      now destruct (thread_step (pcA c) (shared c)).
    - pose proof (thread_step_closed (pcB c) (shared c) Hd) as H.
      now destruct (thread_step (pcB c) (shared c)). }
  destruct Hstep as [Hd1 Hn1]. destruct (IH _ Hd1) as [Hd2 Hn2].
  split; congruence.
Qed.

Lemma thread_step_calls_left p s :
  (n_calls (events (snd (thread_step p s))) + calls_left (fst (thread_step p s))
     <= n_calls (events s) + calls_left p)%nat.
Proof.
  assert (Hcall : forall name req res,
            (n_calls (events (session_of (conn_call name req res s)))
               <= n_calls (events s) + 1)%nat).
  { intros name req res. unfold conn_call.
    destruct (conn (cli s)) as [c|]; [|simpl; lia].
    destruct (conn_Call c name req res (world s)) as [r w]. simpl.
    rewrite n_calls_app. unfold n_calls. simpl. lia. }
  destruct p as [name req res|i name req res|i name req res|name req res|r|];
    simpl thread_step; simpl; try lia.
  - specialize (Hcall name req res).
    destruct (conn_call name req res s) as [[[e|] res1] s'|s']; simpl in *;
      [destruct (negb (is_ErrClosed e) && negb (is_ErrUnexpectedEOF e))| |];
      simpl; lia.
  - destruct (i <? retry (cli s)); [|simpl; lia].
    destruct (open_returns s) as (r & s' & Ho & (mid & Hev & Hq & _)).
    rewrite Ho.
    assert (n_calls (events s') = n_calls (events s))
      by (rewrite Hev, n_calls_app, (reopen_no_calls _ Hq); lia).
    destruct r as [e|]; [destruct (is_EOF e)|]; simpl; lia.
  - rewrite n_calls_app. unfold n_calls. simpl. lia.
  - specialize (Hcall name req res).
    destruct (conn_call name req res s) as [r s'|s']; simpl in *; lia.
Qed.

Lemma run_calls_left sched : forall (c : Conf),
  (n_calls (events (shared (run sched c)))
     + calls_left (pcA (run sched c)) + calls_left (pcB (run sched c))
   <= n_calls (events (shared c)) + calls_left (pcA c) + calls_left (pcB c))%nat.
Proof.
  induction sched as [|t sched IH]; intros c; [simpl; lia|].
  unfold run in *. simpl fold_left.
  etransitivity; [apply IH|].
  unfold sched_step.
  destruct (is_Panicked (pcA c) || is_Panicked (pcB c)); [lia|].
  destruct t.
  - pose proof (thread_step_calls_left (pcA c) (shared c)) as H.
    destruct (thread_step (pcA c) (shared c)). simpl in *. lia.
  - pose proof (thread_step_calls_left (pcB c) (shared c)) as H.
    destruct (thread_step (pcB c) (shared c)). simpl in *. lia.
Qed.

(** X11. Two calls running side by side make at most four attempts
    between them, however they are scheduled and whatever the transport
    answers: the one-replay rule holds for each of them under
    interleaving. *)
Theorem concurrent_calls_at_most_four_attempts
    (sched : list tid) s nameA reqA resA nameB reqB resB :
  let c := run sched {| shared := s;
                        pcA := AtCall nameA reqA resA;
                        pcB := AtCall nameB reqB resB |} in
  (n_calls (events (shared c)) <= n_calls (events s) + 4)%nat.
Proof.
  intros c.
  pose proof (run_calls_left sched
                {| shared := s; pcA := AtCall nameA reqA resA;
                   pcB := AtCall nameB reqB resB |}) as H.
  fold c in H. simpl in H. lia.
Qed.

(** ** How long a call takes *)

Lemma run_thread_final k : forall p s,
  is_final p = true -> run_thread k p s = (p, s).
Proof.
  induction k as [|k IH]; intros p s Hp; [reflexivity|].
  simpl. destruct p; try discriminate; simpl; now apply IH.
Qed.

Lemma thread_step_retry p s :
  retry (cli (snd (thread_step p s))) = retry (cli s).
Proof.
  assert (Hcall : forall name req res,
            retry (cli (session_of (conn_call name req res s))) = retry (cli s))
    by (intros; now rewrite conn_call_cli).
  destruct p as [name req res|i name req res|i name req res|name req res|r|];
    simpl thread_step; try reflexivity.
  - specialize (Hcall name req res).
    destruct (conn_call name req res s) as [[[e|] res1] s'|s']; simpl in *;
      [destruct (negb (is_ErrClosed e) && negb (is_ErrUnexpectedEOF e))| |];
      exact Hcall.
  - destruct (i <? retry (cli s)); [|reflexivity].
    destruct (open_returns s) as (r & s' & Ho & Hre). rewrite Ho.
    destruct Hre as (_ & _ & _ & _ & R & _).
    destruct r as [e|]; [destruct (is_EOF e)|]; exact R.
  - specialize (Hcall name req res).
    destruct (conn_call name req res s) as [r s'|s']; exact Hcall.
Qed.

Lemma thread_step_steps_left p s :
  is_final p = false ->
  (steps_left (retry (cli s)) (fst (thread_step p s))
     < steps_left (retry (cli s)) p)%nat.
Proof.
  intros Hp.
  destruct p as [name req res|i name req res|i name req res|name req res|r|];
    try discriminate; simpl thread_step.
  - destruct (conn_call name req res s) as [[[e|] res1] s'|s']; simpl;
      [destruct (negb (is_ErrClosed e) && negb (is_ErrUnexpectedEOF e))| |];
      simpl; rewrite ?Z.sub_0_r; lia.
  - destruct (Z.ltb_spec i (retry (cli s))) as [Hlt|Hge]; [|simpl; lia].
    destruct (open_returns s) as (r & s' & Ho & _). rewrite Ho.
    destruct r as [e|]; [destruct (is_EOF e)|]; simpl; lia.
  - simpl. replace (retry (cli s) - (i + 1)) with (retry (cli s) - i - 1) by lia.
    lia.
  - destruct (conn_call name req res s) as [r s'|s']; simpl; lia.
Qed.

Lemma run_thread_reaches_final k : forall p s,
  (steps_left (retry (cli s)) p <= k)%nat ->
  is_final (fst (run_thread k p s)) = true.
Proof.
  induction k as [|k IH]; intros p s Hk.
  - simpl. destruct p; simpl in *; auto; lia.
  - destruct (is_final p) eqn:Hp; [now rewrite run_thread_final|].
    simpl. pose proof (thread_step_steps_left p s Hp) as Hlt.
    pose proof (thread_step_retry p s) as Hr.
    destruct (thread_step p s) as [p' s']. simpl in *.
    apply IH. rewrite Hr. lia.
Qed.

(** X12. A call takes a bounded number of steps: run step by step (the
    attempt, then per round of the budget one [open] under the lock and one
    backoff wait, then the replay), it has finished after at most
    [2 * retry + 3] steps, and what it has then is the result and the
    session of [call]. *)
Theorem call_finishes_within_budget s name req res :
  run_thread (2 * Z.to_nat (retry (cli s)) + 3) (AtCall name req res) s
    = pc_of (call name req res s).
Proof.
  set (K := (2 * Z.to_nat (retry (cli s)) + 3)%nat).
  destruct (run_thread_call s name req res) as (k & Hk).
  pose proof (run_thread_reaches_final K (AtCall name req res) s
                (Nat.le_refl _)) as HK.
  pose proof (run_thread_add K k (AtCall name req res) s) as H1.
  pose proof (run_thread_add k K (AtCall name req res) s) as H2.
  rewrite Hk in H2.
  destruct (run_thread K (AtCall name req res) s) as [p' s'] eqn:E.
  simpl in HK. rewrite (run_thread_final k _ _ HK) in H1.
  replace (K + k)%nat with (k + K)%nat in H1 by lia.
  rewrite H1 in H2. rewrite H2.
  destruct (call name req res s) as [r s2|s2]; simpl;
    now rewrite run_thread_final.
Qed.

(** ** The methods on a client without connection *)

(** X13. On a client that holds no connection every method panics before
    anything is sent, with one exception: [Save] still reads its stream
    first, and when that fails it returns the read error as if nothing were
    wrong with the client. *)
Theorem methods_without_connection s :
  conn (cli s) = None ->
  Next s = Panics s /\
  (forall id, Notify id s = Panics s) /\
  (forall id state, Update id state s = Panics s) /\
  (forall id line, Log id line s = Panics s) /\
  (forall id mime file,
      Save id mime file s =
        match reader_error file with
        | Some e => Returns (Some e) s
        | None => Panics s
        end).
Proof.
  intros Hc.
  assert (Hcall : forall name req res, call name req res s = Panics s).
  { intros. unfold call, bind, conn_call. now rewrite Hc. }
  split; [|split; [|split; [|split]]].
  - unfold Next, bind. now rewrite Hcall.
  - intros id. unfold Notify, bind. now rewrite Hcall.
  - intros id state. unfold Update, returning_error, bind. now rewrite Hcall.
  - intros id line. unfold Log, returning_error, bind. now rewrite Hcall.
  - intros id mime file. rewrite Save_cases.
    destruct (reader_error file); [reflexivity|].
    unfold returning_error, bind. now rewrite Hcall.
Qed.

(** ** Construction that fails *)

Lemma openRetry_rounds_error_dial n : forall s e s',
  done (cli s) = false ->
  openRetry_rounds n s = Returns (Some e) s' ->
  exists l, events s' = events s ++ l ++ [EvDial (endpoint (cli s)) None].
Proof.
  induction n as [|n IH]; intros s e s' Hd; [discriminate|].
  simpl. unfold bind, open. rewrite Hd.
  destruct (dial (endpoint (cli s)) (world s)) as [[e1|c] w]; [|discriminate].
  destruct (is_EOF e1).
  - intros [= <- <-]. now exists [].
  - unfold sleep at 1. cbv beta. intros H.
    apply IH in H as (l & Hl); [|exact Hd].
    exists (EvDial (endpoint (cli s)) None :: EvSleep (backoff (cli s)) :: l).
    rewrite Hl. simpl. now rewrite <- !app_assoc.
Qed.

Lemma NewClient_unfold ep opts (w : World) :
  NewClient ep opts w =
    openRetry {| world := w; cli := apply_opts opts (newClient ep);
                 events := [] |}.
Proof. reflexivity. Qed.

Lemma openRetry_first_dial_EOF s w :
  done (cli s) = false -> 0 < retry (cli s) ->
  dial (endpoint (cli s)) (world s) = (inl EOF, w) ->
  openRetry s =
    Returns (Some EOF) (record (EvDial (endpoint (cli s)) None) (with_world w s)).
Proof.
  intros Hd Hpos Hdial. unfold openRetry.
  destruct (Z.to_nat (retry (cli s))) as [|n] eqn:Hn; [lia|].
  simpl. unfold bind. now rewrite (open_dial_fails _ _ _ Hd Hdial).
Qed.

Lemma openRetry_error s e s' :
  openRetry s = Returns (Some e) s' ->
  e = EOF /\ conn (cli s') = conn (cli s).
Proof. apply openRetry_rounds_error. Qed.

Lemma openRetry_error_dial s e s' :
  done (cli s) = false ->
  openRetry s = Returns (Some e) s' ->
  exists l, events s' = events s ++ l ++ [EvDial (endpoint (cli s)) None].
Proof. apply openRetry_rounds_error_dial. Qed.

(** X14. [NewClient] without options reports an error in one case only: a
    dial failed with [io.EOF].  The error is [io.EOF], the failed dial is the
    last thing that happened, and the client handed back holds no
    connection.  Dial errors of any other kind never reach the caller of
    [NewClient]. *)
Theorem NewClient_fails_only_on_dial_EOF ep (w : World) e s :
  NewClient ep [] w = Returns (Some e) s ->
  e = EOF /\ conn (cli s) = None /\
  exists l, events s = l ++ [EvDial ep None].
Proof.
  rewrite NewClient_unfold. intros H.
  destruct (openRetry_error _ _ _ H) as [He Hc].
  apply openRetry_error_dial in H as (l & Hl); [|reflexivity].
  split; [exact He|]. split; [exact Hc|]. exists l. exact Hl.
Qed.

End RpcMore.

(** * The client at work on the scripted transport *)

Import Sim.

Example call_replay_fails_again :
  call methodUpdate update_req ResNil s_dropped =
    Returns (Some ErrUnexpectedEOF, ResNil)
      {| world := {| now := 0; dial_script := []; fresh := 2%nat;
                     down := [0%nat]; call_script := [] |};
         cli := client (Some 1%nat) false 3;
         events := [EvCall 0%nat "update" update_req; EvDial "ws://queue" (Some 1%nat);
                    EvCall 1%nat "update" update_req] |}.
Proof. reflexivity. Qed.

Lemma call_connectivity_error_single_replay_witness :
  conn (cli s_dropped) = Some 0%nat /\
  conn_Call 0%nat methodUpdate update_req ResNil (world s_dropped)
    = ((Some ErrClosed, ResNil), world s_dropped) /\
  connectivity ErrClosed = true /\
  exists out s',
    call methodUpdate update_req ResNil s_dropped = Returns out s' /\
    (n_calls (events s') <= n_calls (events s_dropped) + 2)%nat.
Proof.
  split; [reflexivity|]. split; [reflexivity|]. split; [reflexivity|].
  destruct (call_connectivity_error_single_replay (T := transport)
              s_dropped 0%nat methodUpdate update_req ResNil
              ErrClosed ResNil (world s_dropped) eq_refl eq_refl eq_refl)
    as (err2 & s2 & out & s' & _ & _ & Hcall & Hn & _).
  exists out, s'. split; [exact Hcall | exact Hn].
Defined.

Lemma call_other_error_single_attempt_witness :
  conn (cli s_rejecting) = Some 0%nat /\
  conn_Call 0%nat methodSave save_req ResNil (world s_rejecting)
    = ((Some (ErrOther "invalid mime"), ResNil),
       {| now := 0; dial_script := []; fresh := 1%nat; down := [];
          call_script := [] |}) /\
  connectivity (ErrOther "invalid mime") = false /\
  exists s',
    call methodSave save_req ResNil s_rejecting
      = Returns (Some (ErrOther "invalid mime"), ResNil) s' /\
    events s' = events s_rejecting ++ [EvCall 0%nat methodSave save_req] /\
    n_calls (events s') = (n_calls (events s_rejecting) + 1)%nat /\
    n_dials (events s') = n_dials (events s_rejecting) /\
    cli s' = cli s_rejecting /\
    world s' = {| now := 0; dial_script := []; fresh := 1%nat; down := [];
                  call_script := [] |}.
Proof.
  split; [reflexivity|]. split; [reflexivity|]. split; [reflexivity|].
  exact (call_other_error_single_attempt (T := transport)
           s_rejecting 0%nat methodSave save_req ResNil
           (ErrOther "invalid mime") ResNil _ eq_refl eq_refl eq_refl).
Defined.

Example call_after_Close :
  call methodNext ReqNil (ResPipeline zeroPipeline) (session_of (Close s_live)) =
    Returns (Some EOF, ResPipeline zeroPipeline)
      {| world := {| now := 0; dial_script := []; fresh := 1%nat;
                     down := [0%nat]; call_script := [] |};
         cli := client (Some 0%nat) true 3;
         events := [EvClose 0%nat; EvCall 0%nat "next" ReqNil] |}.
Proof. reflexivity. Qed.

Lemma closed_session_never_dials_witness :
  let s := fold_left do_op [OpOpenRetry; OpCall methodNext ReqNil ResNil]
             (session_of (Close s_live)) in
  conn (cli s) = Some 0%nat /\
  conn_Call 0%nat methodNext ReqNil ResNil (world s)
    = ((Some ErrClosed, ResNil), world s) /\
  connectivity ErrClosed = true /\
  0 < retry (cli s) /\
  n_dials (events s) = 0%nat /\
  open s = Returns (Some EOF) s /\
  call methodNext ReqNil ResNil s =
    Returns (Some EOF, ResNil)
      (record (EvCall 0%nat methodNext ReqNil) (with_world (world s) s)).
Proof.
  intros s.
  destruct (closed_session_never_dials (T := transport) s_live
              [OpOpenRetry; OpCall methodNext ReqNil ResNil])
    as (_ & Hn & Hopen & _ & _ & Hcall).
  split; [reflexivity|]. split; [reflexivity|]. split; [reflexivity|].
  split; [reflexivity|]. split; [exact Hn|]. split; [exact Hopen|].
  exact (Hcall 0%nat methodNext ReqNil ResNil ErrClosed ResNil (world s)
           eq_refl eq_refl eq_refl eq_refl).
Defined.

Lemma openRetry_budget_exhausted_returns_nil_witness :
  (done (cli s_unreachable) = false \/ retry (cli s_unreachable) <= 0) /\
  dials_fail 2 "ws://queue" (10 * Second) (world s_unreachable) /\
  openRetry s_unreachable =
    Returns None
      {| world := {| now := 20 * Second; dial_script := []; fresh := 0%nat;
                     down := []; call_script := [] |};
         cli := client None false 2;
         events := [EvDial "ws://queue" None; EvSleep (10 * Second);
                    EvDial "ws://queue" None; EvSleep (10 * Second)] |}.
Proof.
  split; [left; reflexivity|].
  split; [simpl; repeat split|].
  exact (proj1 (openRetry_budget_exhausted_returns_nil (T := transport) s_unreachable
                  (or_introl eq_refl) (conj eq_refl (conj eq_refl I)))).
Defined.

Example openRetry_zero_budget :
  openRetry (session (world_new [] []) (client None false 0)) =
    Returns None (session (world_new [] []) (client None false 0)).
Proof. reflexivity. Qed.

(** [Close], twice. *)
Lemma Close_second_time_reports_ErrClosed :
  exists s1 s2,
    Close s_live = Returns None s1 /\
    Close s1 = Returns (Some ErrClosed) s2 /\
    Some ErrClosed <> @None error.
Proof.
  eexists _, _. split; [reflexivity|]. split; [reflexivity | discriminate].
Qed.

Lemma Close_twice_same_client_witness :
  let s1 := session_of (Close s_live) in
  Close s_live = Returns None s1 /\
  exists r2 s2,
    Close s1 = Returns r2 s2 /\ cli s2 = cli s1 /\
    events s2 = events s1 ++ [EvClose 0%nat].
Proof.
  intros s1. split; [reflexivity|].
  destruct (Close_twice_same_client (T := transport) s_live None s1 eq_refl)
    as (c & r2 & s2 & Hc & _ & Hclose & _ & _ & Hcli & Hev).
  exists r2, s2. split; [exact Hclose|]. split; [exact Hcli|].
  injection Hc as <-. exact Hev.
Defined.

(** The client and the [Peer] interface. *)
Lemma Client_has_no_Extend :
  ~ (forall p : PeerCall (Line := Line),
        exists m, Client_method (T := transport) p = Some m).
Proof.
  intros H. destruct (H (PeerExtend "42")) as [m Hm]. discriminate Hm.
Qed.

Lemma Client_methods_go_through_call_witness :
  Client_method (T := transport) PeerNext = Some (error_of Next) /\
  exists name,
    method_name (Line := Line) PeerNext = Some name /\
    In name [methodNext; methodNotify; methodUpdate; methodLog; methodSave].
Proof.
  split; [reflexivity|].
  destruct (Client_methods_go_through_call (T := transport) PeerNext (error_of Next) s_live eq_refl)
    as (name & Hname & Hin & _).
  exists name. split; [exact Hname | exact Hin].
Defined.

(** Saving an artifact that arrives in two chunks. *)
Example Save_two_chunks :
  Save "42" "text/plain"
    (RdData [Byte.x61; Byte.x62] (RdData [Byte.x63] (RdErr EOF))) s_live =
    Returns None
      {| world := world s_live; cli := cli s_live;
         events := [EvCall 0%nat "save"
                      (ReqSave {| save_ID := "42"; save_Mime := "text/plain";
                                  save_Data := [Byte.x61; Byte.x62; Byte.x63] |})] |}.
Proof. reflexivity. Qed.

Example Save_read_error :
  Save "42" "text/plain"
    (RdData [Byte.x61] (RdErr (ErrOther "disk"))) s_live =
    Returns (Some (ErrOther "disk")) s_live.
Proof. reflexivity. Qed.

(** Construction with the defaults. *)
Lemma NewClient_defaults_witness :
  dial "ws://queue" (world_new [Some (ErrOther "refused")] [])
    = (inl (ErrOther "refused"), world_new [] []) /\
  is_EOF (ErrOther "refused") = false /\
  NewClient "ws://queue" [] (world_new [Some (ErrOther "refused")] []) =
    Returns None
      {| world := {| now := 10 * Second; dial_script := []; fresh := 1%nat;
                     down := []; call_script := [] |};
         cli := {| conn := Some 0%nat; done := false; retry := 2 ^ 31 - 1;
                   backoff := 10 * Second; endpoint := "ws://queue" |};
         events := [EvDial "ws://queue" None; EvSleep (10 * Second);
                    EvDial "ws://queue" (Some 0%nat)] |}.
Proof.
  split; [reflexivity|]. split; [reflexivity|].
  destruct (NewClient_defaults (T := transport) "ws://queue"
              (world_new [Some (ErrOther "refused")] []))
    as (_ & _ & _ & _ & H).
  exact (H (ErrOther "refused") (world_new [] []) 0%nat _ eq_refl eq_refl eq_refl).
Defined.

Lemma concurrent_calls_dial_twice :
  let failed := run [ThreadA; ThreadB] two_calls in
  let c := run [ThreadA; ThreadA; ThreadB; ThreadB] failed in
  pcA failed = AtLoop 0 methodLog (ReqLog {| log_ID := "42"; log_Line := Some "hello" |}) ResNil /\
  pcB failed = AtLoop 0 methodUpdate update_req ResNil /\
  n_dials (events (shared failed)) = 0%nat /\
  pcA c = Returned (None, ResNil) /\
  pcB c = Returned (None, ResNil) /\
  n_dials (events (shared c)) = 2%nat /\
  n_dials (events (shared c)) <> 1%nat /\
  call_conns (events (shared c)) = [0; 0; 1; 2]%nat.
Proof. repeat split; try reflexivity. discriminate. Qed.

Lemma concurrent_calls_reconnect_separately_witness :
  let s := shared (run [ThreadA; ThreadB] two_calls) in
  let c := run [ThreadB; ThreadA; ThreadA; ThreadB]
             {| shared := s;
                pcA := AtLoop 0 methodLog ReqNil ResNil;
                pcB := AtLoop 0 methodUpdate update_req ResNil |} in
  done (cli s) = false /\ 0 < retry (cli s) /\
  is_Returned (pcA c) = true /\ is_Returned (pcB c) = true /\
  exists l,
    events (shared c) = events s ++ l /\
    (2 <= n_dials l)%nat.
Proof.
  intros s c.
  split; [reflexivity|]. split; [reflexivity|].
  split; [reflexivity|]. split; [reflexivity|].
  exact (concurrent_calls_reconnect_separately (T := transport)
           [ThreadB; ThreadA; ThreadA; ThreadB] s
           methodLog ReqNil ResNil methodUpdate update_req ResNil
           eq_refl eq_refl eq_refl eq_refl).
Defined.

Lemma Close_and_call_need_a_connection_witness :
  let w := world_new [] [] in
  exists s,
    NewClient "ws://queue" [no_budget] w = Returns None s /\
    conn (cli s) = None /\
    Close s = Panics (with_cli (set_done (cli s)) s) /\
    call methodNext ReqNil (ResPipeline zeroPipeline) s = Panics s.
Proof.
  intros w.
  destruct (Close_and_call_need_a_connection (T := transport)) as [Hnil Hnew].
  destruct (Hnew "ws://queue" [no_budget] w eq_refl
              (or_intror (Z.le_refl 0)) I) as (s & Hs & Hc).
  exists s. split; [exact Hs|]. split; [exact Hc|].
  specialize (Hnil s). rewrite Hc in Hnil. destruct Hnil as [HClose Hcall].
  split; [exact HClose | apply Hcall].
Defined.

(** * More runs on the scripted transport *)

Lemma call_success_single_attempt_witness :
  conn (cli s_live) = Some 0%nat /\
  conn_Call 0%nat methodNotify (ReqString "42") (ResBool false) (world s_live)
    = ((None, ResBool true), world s_live) /\
  exists s',
    call methodNotify (ReqString "42") (ResBool false) s_live
      = Returns (None, ResBool true) s' /\
    events s' = events s_live ++ [EvCall 0%nat methodNotify (ReqString "42")] /\
    n_dials (events s') = n_dials (events s_live) /\
    cli s' = cli s_live /\ world s' = world s_live.
Proof.
  split; [reflexivity|]. split; [reflexivity|].
  exact (call_success_single_attempt (T := transport)
           s_live 0%nat methodNotify (ReqString "42") (ResBool false)
           (ResBool true) (world s_live) eq_refl eq_refl).
Defined.

(** Three dials are refused, the fourth goes through. *)
Lemma openRetry_succeeds_after_failures_witness :
  let refused := Some (ErrOther "refused") in
  let s := session (world_new [refused; refused; refused] []) (client None false 5) in
  done (cli s) = false /\
  Z.of_nat 3 < retry (cli s) /\
  dials_fail 3 (endpoint (cli s)) (backoff (cli s)) (world s) /\
  dial (endpoint (cli s)) (world (session_after_failures 3 s))
    = (inr 0%nat, {| now := 30 * Second; dial_script := []; fresh := 1%nat;
                     down := []; call_script := [] |}) /\
  openRetry s =
    Returns None
      {| world := {| now := 30 * Second; dial_script := []; fresh := 1%nat;
                     down := []; call_script := [] |};
         cli := client (Some 0%nat) false 5;
         events := [EvDial "ws://queue" None; EvSleep (10 * Second);
                    EvDial "ws://queue" None; EvSleep (10 * Second);
                    EvDial "ws://queue" None; EvSleep (10 * Second);
                    EvDial "ws://queue" (Some 0%nat)] |}.
Proof.
  intros refused s.
  split; [reflexivity|]. split; [reflexivity|].
  split; [simpl; repeat split|]. split; [reflexivity|].
  exact (proj1 (openRetry_succeeds_after_failures (T := transport) 3 s 0%nat _
                  eq_refl eq_refl
                  (conj eq_refl (conj eq_refl (conj eq_refl I))) eq_refl)).
Defined.

(** One dial is refused, the next one ends with io.EOF. *)
Lemma openRetry_stops_on_dial_EOF_witness :
  let s := session (world_new [Some (ErrOther "refused"); Some EOF] [])
             (client None false 5) in
  done (cli s) = false /\
  Z.of_nat 1 < retry (cli s) /\
  dials_fail 1 (endpoint (cli s)) (backoff (cli s)) (world s) /\
  dial (endpoint (cli s)) (world (session_after_failures 1 s))
    = (inl EOF, {| now := 10 * Second; dial_script := []; fresh := 0%nat;
                   down := []; call_script := [] |}) /\
  openRetry s =
    Returns (Some EOF)
      {| world := {| now := 10 * Second; dial_script := []; fresh := 0%nat;
                     down := []; call_script := [] |};
         cli := client None false 5;
         events := [EvDial "ws://queue" None; EvSleep (10 * Second);
                    EvDial "ws://queue" None] |}.
Proof.
  intros s.
  split; [reflexivity|]. split; [reflexivity|].
  split; [simpl; repeat split|]. split; [reflexivity|].
  exact (openRetry_stops_on_dial_EOF (T := transport) 1 s _
           eq_refl eq_refl (conj eq_refl I) eq_refl).
Defined.

Lemma openRetry_error_is_EOF_witness :
  let s := session_of (Close s_live) in
  openRetry s = Returns (Some EOF) s /\
  EOF = EOF /\ conn (cli s) = conn (cli s).
Proof.
  intros s. split; [reflexivity|].
  exact (openRetry_error_is_EOF (T := transport) s EOF s eq_refl).
Defined.

(** The connection has dropped and the endpoint stays out of reach. *)
Lemma call_replays_on_old_connection_witness :
  let refused := Some (ErrOther "refused") in
  let s := session (world0 [refused; refused] []) (client (Some 0%nat) false 2) in
  conn (cli s) = Some 0%nat /\
  conn_Call 0%nat methodUpdate update_req ResNil (world s)
    = ((Some ErrClosed, ResNil), world s) /\
  connectivity ErrClosed = true /\
  (done (cli s) = false \/ retry (cli s) <= 0) /\
  dials_fail 2 (endpoint (cli s)) (backoff (cli s)) (world s) /\
  exists s',
    call methodUpdate update_req ResNil s = Returns (Some ErrClosed, ResNil) s' /\
    events s' = [EvCall 0%nat methodUpdate update_req;
                 EvDial "ws://queue" None; EvSleep (10 * Second);
                 EvDial "ws://queue" None; EvSleep (10 * Second);
                 EvCall 0%nat methodUpdate update_req] /\
    cli s' = cli s.
Proof.
  intros refused s.
  split; [reflexivity|]. split; [reflexivity|]. split; [reflexivity|].
  split; [left; reflexivity|]. split; [simpl; repeat split|].
  destruct (call_replays_on_old_connection (T := transport)
              s 0%nat methodUpdate update_req ResNil ErrClosed ResNil (world s)
              eq_refl eq_refl eq_refl (or_introl eq_refl)
              (conj eq_refl (conj eq_refl I)))
    as (s' & Hcall & Hev & Hcli & _).
  exists s'. split; [exact Hcall|]. split; [exact Hev | exact Hcli].
Defined.

Lemma connected_client_never_panics_witness :
  let ops := [OpCall methodUpdate update_req ResNil; OpClose; OpOpenRetry] in
  let s' := fold_left do_op ops s_dropped in
  conn (cli s_dropped) = Some 0%nat /\
  (exists c', conn (cli s') = Some c') /\
  (exists r s'', Close s' = Returns r s'').
Proof.
  intros ops s'. split; [reflexivity|].
  destruct (connected_client_never_panics (T := transport) ops s_dropped 0%nat
              eq_refl) as (Hc & HClose & _).
  split; [exact Hc | exact HClose].
Defined.

(** Close has run while one call waits in the backoff and the other is
    about to try again. *)
Lemma closed_flag_stops_concurrent_dials_witness :
  let c := {| shared := session_of (Close s_dropped);
              pcA := AtSleep 0 methodLog ReqNil ResNil;
              pcB := AtLoop 0 methodUpdate update_req ResNil |} in
  let sched := [ThreadA; ThreadB; ThreadA; ThreadB; ThreadA] in
  done (cli (shared c)) = true /\
  done (cli (shared (run sched c))) = true /\
  n_dials (events (shared (run sched c))) = n_dials (events (shared c)).
Proof.
  intros c sched. split; [reflexivity|].
  exact (closed_flag_stops_concurrent_dials (T := transport) sched c eq_refl).
Defined.

Lemma methods_without_connection_witness :
  let s := session (world_new [] []) (client None false 0) in
  conn (cli s) = None /\
  Next s = Panics s /\
  Save "42" "text/plain" (RdData [Byte.x61] (RdErr (ErrOther "disk"))) s
    = Returns (Some (ErrOther "disk")) s.
Proof.
  intros s. split; [reflexivity|].
  destruct (methods_without_connection (T := transport) s eq_refl)
    as (HNext & _ & _ & _ & HSave).
  split; [exact HNext|].
  exact (HSave "42" "text/plain" (RdData [Byte.x61] (RdErr (ErrOther "disk")))).
Defined.

Lemma NewClient_fails_only_on_dial_EOF_witness :
  let w := world_new [Some EOF] [] in
  let s := {| world := world_new [] [];
              cli := {| conn := None; done := false; retry := 2 ^ 31 - 1;
                        backoff := 10 * Second; endpoint := "ws://queue" |};
              events := [EvDial "ws://queue" None] |} in
  NewClient "ws://queue" [] w = Returns (Some EOF) s /\
  EOF = EOF /\ conn (cli s) = None /\
  exists l, events s = l ++ [EvDial "ws://queue" None].
Proof.
  intros w s.
  assert (H : NewClient "ws://queue" [] w = Returns (Some EOF) s).
  { rewrite NewClient_unfold.
    rewrite (openRetry_first_dial_EOF (T := transport) _ (world_new [] []));
      reflexivity. }
  split; [exact H|].
  exact (NewClient_fails_only_on_dial_EOF (T := transport) "ws://queue" w EOF s H).
Defined.
